(** * Mark-compact collector of the GC visualiser

    A shallow embedding of [gc_visualizer_slides_25_36.jsx]: the object
    model, the three phases ([markReachable], [prepareCompaction],
    [crunch]) and the component's event handlers with their history
    stack, followed by the properties of the collector.

    Conventions of the embedding.
    - JavaScript numbers holding addresses and sizes are integers; they are
      modelled by [Z] (no rounding below 2^53 is modelled).
    - An optional property ([marked?], [newAddr?]) is an [option]: [None]
      is the absent property.  [null] in [number | null] is [None] too.
    - Object identity matters where the source mutates objects reached
      through a second container ([Map] values in [markReachable], the
      sorted copy of the array in [prepareCompaction]).  There the array
      is the store, and a reference to an object is its index in it.
    - [Map<number, _>] is a [gmap Z _], [Set<number>] a [gset Z]. *)

From stdpp Require Import gmap strings list fin_maps sorting pretty.

Local Open Scope Z_scope.

(* ------------------------------------------------------------------ *)
(** ** Types *)

Module Obj.
(** [type Obj = { id; addr; size; fields; marked?; newAddr? }]. *)
Record t : Type := mk {
  id : string;
  addr : Z;                     (* start address in the heap array *)
  size : Z;                     (* total cells, including header *)
  fields : list (option Z);     (* length = size-1 *)
  marked : option bool;         (* for Phase 1 *)
  newAddr : option (option Z)   (* for Phase 2; [Some None] is null *)
}.

(** [if (o.marked)]: absent and [false] are both falsy. *)
Definition isMarked (o : t) : bool :=
  match marked o with Some true => true | _ => false end.

(** [o.marked = true]. *)
Definition setMarked (o : t) : t :=
  mk (id o) (addr o) (size o) (fields o) (Some true) (newAddr o).

(** [o.newAddr = n]. *)
Definition setNewAddr (n : Z) (o : t) : t :=
  mk (id o) (addr o) (size o) (fields o) (marked o) (Some (Some n)).

(** [o.fields = fs]. *)
Definition setFields (fs : list (option Z)) (o : t) : t :=
  mk (id o) (addr o) (size o) fs (marked o) (newAddr o).

(** [{ ...o, addr: na, newAddr: null, marked: false }]. *)
Definition moved (na : Z) (o : t) : t :=
  mk (id o) na (size o) (fields o) (Some false) (Some None).
End Obj.

#[global] Instance Obj_eq_dec : EqDecision Obj.t.
Proof. solve_decision. Defined.

Inductive Phase : Type := Idle | Mark | Prepare | Crunch.

#[global] Instance Phase_eq_dec : EqDecision Phase.
Proof. solve_decision. Defined.

Module Scenario.
Record t : Type := mk {
  name : string;
  memorySize : Z;
  root : option Z;
  objects : list Obj.t
}.
End Scenario.

(* ------------------------------------------------------------------ *)
(** ** Helpers *)

(** [JSON.parse(JSON.stringify(x))].  On the data of this program (finite
    integers, strings, booleans, null, arrays and plain objects whose
    absent properties stay absent) the round trip rebuilds the same value
    in fresh storage.  Values of the embedding are immutable, so the copy
    is the value itself. *)
Definition deepClone {T : Type} (x : T) : T := x.

Section SortByAddr.
Context {T : Type} (key : T → Z).

(** One step of a stable insertion: [x] stood before every element of
    [l] in the input, so it goes in front of the first element whose
    key is not smaller than its own. *)
Fixpoint insertByAddr (x : T) (l : list T) : list T :=
  match l with
  | [] => [x]
  | y :: l' =>
      if decide (key y < key x) then y :: insertByAddr x l'
      else x :: y :: l'
  end.

(** [[...arr].sort((a, b) => a.addr - b.addr)]: a new array, the input
    is left as it is; [Array.prototype.sort] is stable. *)
Definition sortByAddr (arr : list T) : list T := foldr insertByAddr [] arr.
End SortByAddr.

(** [objects.reduce((m, o) => Math.max(m, o.addr + o.size), 0)]. *)
Definition lastEnd (objects : list Obj.t) : Z :=
  foldl (λ m o, Z.max m (Obj.addr o + Obj.size o)) 0 objects.

(* ------------------------------------------------------------------ *)
(** ** The memory tape: [buildMemory] *)

(** An element of the tape, [number | string | null]; [Hole] is the
    missing element an assignment past the end of an array leaves between
    the old end and the new element. *)
Inductive Cell : Type :=
  | Hole
  | Null
  | Num (n : Z)
  | Str (s : string).

(** [mem[i] = v].  Inside the array the element is replaced; at or past
    its end the array grows to hold it; a negative index names a
    property and no element. *)
Definition assign (i : Z) (v : Cell) (mem : list Cell) : list Cell :=
  if decide (i < 0) then mem
  else if decide (Z.to_nat i < length mem)%nat then <[Z.to_nat i := v]> mem
  else mem ++ replicate (Z.to_nat i - length mem) Hole ++ [v].

(** [phase === "mark" || phase === "prepare" ? (o.marked ? -o.size : o.size)
    : o.size] *)
Definition headerVal (phase : Phase) (o : Obj.t) : Z :=
  match phase with
  | Mark | Prepare => if Obj.isMarked o then - Obj.size o else Obj.size o
  | _ => Obj.size o
  end.

(** [v === null ? null : `@${v}`]: pointers are rendered as "@addr". *)
Definition fieldCell (v : option Z) : Cell :=
  match v with
  | None => Null
  | Some a => Str ("@" +:+ pretty a)
  end.

(** [for (let i = 0; i < o.fields.length; i++) mem[o.addr + 1 + i] = ...],
    with [cellIdx] the index of the first field left to write. *)
Fixpoint writeFields (cellIdx : Z) (fields : list (option Z))
    (mem : list Cell) : list Cell :=
  match fields with
  | [] => mem
  | v :: rest => writeFields (cellIdx + 1) rest (assign cellIdx (fieldCell v) mem)
  end.

(** Body of [for (const o of objects)]. *)
Definition writeObject (memorySize : Z) (phase : Phase) (mem : list Cell)
    (o : Obj.t) : list Cell :=
  if decide (Obj.addr o < 0 ∨ Obj.addr o + Obj.size o > memorySize)
  then mem                                              (* skip invalid *)
  else writeFields (Obj.addr o + 1) (Obj.fields o)
         (assign (Obj.addr o) (Num (headerVal phase o)) mem).

(** [Array(memorySize)] throws a RangeError unless [memorySize] is an
    array length; the result is [None] then. *)
Definition buildMemory (objects : list Obj.t) (memorySize : Z)
    (phase : Phase) : option (list Cell) :=
  if decide (0 ≤ memorySize ≤ 4294967295) then
    Some (foldl (writeObject memorySize phase)
                (replicate (Z.to_nat memorySize) Null) objects)
  else None.

(* ------------------------------------------------------------------ *)
(** ** Phase 1: [markReachable] *)

(** [new Map(entries)]: the entries are inserted from left to right, a
    later entry with the same key replaces the earlier one. *)
Definition newMap {V : Type} (entries : list (Z * V)) : gmap Z V :=
  foldl (λ m e, <[e.1 := e.2]> m) ∅ entries.

(** [new Map(objects.map(o => [o.addr, o]))].  The value is the
    reference to the object. *)
Definition objectMap (objects : list Obj.t) : gmap Z nat :=
  newMap (imap (λ i o, (Obj.addr o, i)) objects).

(** What [dfs] closes over and mutates: the objects and [visited]. *)
Record MarkState : Type := mkMarkState {
  heap : list Obj.t;
  visited : gset Z
}.

(** [for (const p of o.fields) { if (p != null) dfs(p); }] *)
Fixpoint forEachField (dfs : option Z → MarkState → option MarkState)
    (ps : list (option Z)) (st : MarkState) : option MarkState :=
  match ps with
  | [] => Some st
  | p :: ps' =>
      st' ← match p with Some _ => dfs p st | None => Some st end;
      forEachField dfs ps' st'
  end.

(** The recursive closure [dfs].  [fuel] bounds the depth of the
    recursion; [None] is returned only when it is used up
    (see [dfs_spec]: [S (length objects)] always suffices), or when a
    reference does not point into the store, which [objectMap] never
    produces. *)
Fixpoint dfs (fuel : nat) (map : gmap Z nat) (addr : option Z)
    (st : MarkState) : option MarkState :=
  match fuel with
  | O => None
  | S fuel' =>
      match addr with
      | None => Some st                                (* addr == null *)
      | Some a =>
          match map !! a with
          | None => Some st                            (* !o *)
          | Some r =>
              if decide (a ∈ visited st) then Some st  (* visited.has(addr) *)
              else
                o ← heap st !! r;
                forEachField (dfs fuel' map) (Obj.fields o)
                  (mkMarkState (<[r := Obj.setMarked o]> (heap st))
                               ({[a]} ∪ visited st))
          end
      end
  end.

Definition markReachable (objects : list Obj.t) (rootAddr : option Z)
    : option (list Obj.t) :=
  let map := objectMap objects in
  let st := mkMarkState objects ∅ in
  match rootAddr with
  | Some _ => heap <$> dfs (S (length objects)) map rootAddr st
  | None => Some objects
  end.

(* ------------------------------------------------------------------ *)
(** ** Phase 2: [prepareCompaction] *)

(** The references to the elements of an array, in array order. *)
Definition refs (objects : list Obj.t) : list nat := seq 0 (length objects).

(** [r.addr] for a reference [r] into [objects]. *)
Definition addrAt (objects : list Obj.t) (r : nat) : Z :=
  from_option Obj.addr 0 (objects !! r).

Record PlanState : Type := mkPlanState {
  planHeap : list Obj.t;
  planMap : gmap Z Z;      (* oldToNew *)
  planCursor : Z           (* newAddr *)
}.

(** Body of [for (const o of sorted) { if (o.marked) { ... } }]. *)
Definition planStep (st : PlanState) (r : nat) : PlanState :=
  match planHeap st !! r with
  | Some o =>
      if Obj.isMarked o then
        mkPlanState (<[r := Obj.setNewAddr (planCursor st) o]> (planHeap st))
                    (<[Obj.addr o := planCursor st]> (planMap st))
                    (planCursor st + Obj.size o)
      else st
  | None => st
  end.

(** [cell != null && oldToNew.has(cell) ? oldToNew.get(cell)! : cell] *)
Definition retarget (oldToNew : gmap Z Z) (cell : option Z) : option Z :=
  match cell with
  | Some c => match oldToNew !! c with Some n => Some n | None => cell end
  | None => cell
  end.

Record Prepared : Type := mkPrepared {
  preparedObjects : list Obj.t;
  oldToNew : gmap Z Z;
  newRoot : option Z;
  preparedNextFree : Z
}.

Definition prepareCompaction (objects : list Obj.t) (memorySize : Z)
    (rootAddr : option Z) : Prepared :=
  let sorted := sortByAddr (addrAt objects) (refs objects) in
  let st := foldl planStep (mkPlanState objects ∅ 0) sorted in
  (* Update pointers in-place to the new addresses *)
  let objects' :=
    (λ o, Obj.setFields (retarget (planMap st) <$> Obj.fields o) o)
      <$> planHeap st in
  let newRoot :=
    match rootAddr with
    | Some r => match planMap st !! r with Some n => Some n | None => None end
    | None => None
    end in
  mkPrepared objects' (planMap st) newRoot (planCursor st).

(* ------------------------------------------------------------------ *)
(** ** Phase 3: [crunch] *)

(** The loop of [crunch] with its accumulator [kept].  [oldToNew.get(o.addr)!]
    asserts that the key is present; the result is [None] when it is not,
    since the object built from it would have no address. *)
Fixpoint crunchLoop (oldToNew : gmap Z Z) (sorted : list Obj.t)
    (kept : list Obj.t) : option (list Obj.t) :=
  match sorted with
  | [] => Some kept
  | o :: rest =>
      if Obj.isMarked o then
        na ← oldToNew !! Obj.addr o;
        crunchLoop oldToNew rest (kept ++ [Obj.moved na o])
      else crunchLoop oldToNew rest kept              (* drop garbage *)
  end.

Definition crunch (objects : list Obj.t) (oldToNew : gmap Z Z)
    : option (list Obj.t) :=
  crunchLoop oldToNew (sortByAddr Obj.addr objects) [].

(* ------------------------------------------------------------------ *)
(** ** The component: state, history and event handlers *)

Definition makeDefaultScenario : Scenario.t :=
  Scenario.mk "A→B→C with garbage D" 36 (Some 2)
    [ Obj.mk "A" 2 4 [Some 8; Some 14; None] None None;
      Obj.mk "B" 8 3 [Some 14; None] None None;
      Obj.mk "C" 14 3 [None; None] None None;
      Obj.mk "D" 22 5 [None; None; None; None] None None ].

Module Snap.
(** [type Snap]; the mapping is stored as its array of entries. *)
Record t : Type := mk {
  objects : list Obj.t;
  root : option Z;
  phase : Phase;
  mapping : list (Z * Z);
  nextFree : Z
}.
End Snap.

(** The [useState] cells of [GCVisualizer]. *)
Record State : Type := mkState {
  scenario : Scenario.t;
  objects : list Obj.t;
  root : option Z;
  phase : Phase;
  mapping : gmap Z Z;
  nextFree : Z;
  history : list Snap.t
}.

(** The state of the first render. *)
Definition initialState : State :=
  let sc := makeDefaultScenario in
  let objs := deepClone (Scenario.objects sc) in
  mkState sc objs (Scenario.root sc) Idle ∅ (lastEnd objs) [].

(** Error kinds.  The source declares none and no handler has a [throw];
    the names are those the specification uses, kept to state what the
    handlers do not do. *)
Inductive Error : Type :=
  | MalformedLayoutError
  | InsufficientSpaceError
  | InvalidPhaseError
  | NoHistoryError.

(** How a handler run on state [s] completes: normally with the next
    state, by throwing, or [Stuck] when the embedding of a callee gave
    [None] (depth bound of [dfs], asserted key of [crunch]). *)
Inductive Completion : Type :=
  | Normal (s : State)
  | Throw (e : Error) (s : State)
  | Stuck.

(** Run the next handler on the state the previous one left. *)
Definition andThen (c : Completion) (h : State → Completion) : Completion :=
  match c with Normal s => h s | _ => c end.

Notation "c >>> h" := (andThen c h) (at level 61, left associativity).

(** A handler reads the state cells of the render it was created in and
    queues their new values; no handler reads a cell after setting it,
    so each is a function from the rendered state to the next one. *)

Definition takeSnap (s : State) : Snap.t :=
  Snap.mk (deepClone (objects s)) (root s) (phase s)
          (map_to_list (mapping s)) (nextFree s).

(** [setHistory(h => [...h, takeSnap()])] *)
Definition pushHistory (s : State) : list Snap.t := history s ++ [takeSnap s].

Definition goPrev (s : State) : Completion :=
  match last (history s) with
  | None => Normal s                           (* h.length === 0 *)
  | Some snap =>
      Normal (mkState (scenario s)
                      (deepClone (Snap.objects snap))
                      (Snap.root snap)
                      (Snap.phase snap)
                      (newMap (Snap.mapping snap))
                      (Snap.nextFree snap)
                      (removelast (history s)))
  end.

Definition reset (s : State) : Completion :=
  let sc := makeDefaultScenario in
  Normal (mkState sc (deepClone (Scenario.objects sc)) (Scenario.root sc)
                  Idle ∅ (lastEnd (Scenario.objects sc)) []).

Definition doMark (s : State) : Completion :=
  if decide (phase s ≠ Idle) then Normal s
  else
    match markReachable (deepClone (objects s)) (root s) with
    | Some objs =>
        Normal (mkState (scenario s) objs (root s) Mark (mapping s)
                        (nextFree s) (pushHistory s))
    | None => Stuck
    end.

Definition doPrepare (s : State) : Completion :=
  if decide (phase s ≠ Mark) then Normal s
  else
    let p := prepareCompaction (deepClone (objects s))
               (Scenario.memorySize (scenario s)) (root s) in
    Normal (mkState (scenario s) (preparedObjects p) (newRoot p) Prepare
                    (oldToNew p) (preparedNextFree p) (pushHistory s)).

Definition doCrunch (s : State) : Completion :=
  if decide (phase s ≠ Prepare) then Normal s
  else
    match crunch (deepClone (objects s)) (mapping s) with
    | Some objs =>
        Normal (mkState (scenario s) objs (root s) Crunch (mapping s)
                        (nextFree s) (pushHistory s))
    | None => Stuck
    end.

Definition autoRun (s : State) : Completion :=
  match phase s with
  | Idle => doMark s
  | Mark => doPrepare s
  | Prepare => doCrunch s
  | Crunch => Normal s
  end.

Definition changeRoot (addr : Z) (s : State) : Completion :=
  if decide (phase s = Idle) then
    Normal (mkState (scenario s) (objects s) (Some addr) (phase s)
                    (mapping s) (nextFree s) (history s))
  else Normal s.

(** [rnd] is the value of [Math.floor(Math.random()*90+10)] drawn by this
    call. *)
Definition addGarbage (rnd : Z) (s : State) : Completion :=
  if decide (phase s ≠ Idle) then Normal s
  else
    let lastEnd := lastEnd (objects s) in
    let free := Scenario.memorySize (scenario s) - lastEnd in
    if decide (free < 3) then Normal s
    else
      let g := Obj.mk ("G" +:+ pretty rnd) (lastEnd + 1) 3 [None; None]
                      None None in
      Normal (mkState (scenario s)
                      (sortByAddr Obj.addr (objects s ++ [g]))
                      (root s) (phase s) (mapping s) (nextFree s)
                      (history s)).

(** [buildMemory] skips an object as invalid when it does not lie inside
    the tape. *)
Definition insideMemory (memorySize : Z) (o : Obj.t) : Prop :=
  ¬ (Obj.addr o < 0 ∨ Obj.addr o + Obj.size o > memorySize).

(* ------------------------------------------------------------------ *)
(** ** Vocabulary of the properties *)

(** *** Reachability *)

(** An object is reachable from the root when it is the object the root
    points to, or a field of a reachable object holds its address. *)
Inductive reachable (objects : list Obj.t) (rootAddr : option Z)
    : Obj.t → Prop :=
  | reachable_root o :
      o ∈ objects → rootAddr = Some (Obj.addr o) →
      reachable objects rootAddr o
  | reachable_hop o o' :
      reachable objects rootAddr o → o' ∈ objects →
      Some (Obj.addr o') ∈ Obj.fields o →
      reachable objects rootAddr o'.

(** The pointer graph on addresses, as [dfs] sees it: [edge a b] when the
    object found under address [a] holds [b] in one of its fields. *)
Definition edge (objs : list Obj.t) (a b : Z) : Prop :=
  ∃ r o, objectMap objs !! a = Some r ∧ objs !! r = Some o
         ∧ Some b ∈ Obj.fields o.

(** The store once the objects found under the addresses in [V] have
    been marked. *)
Definition markedHeap (objs : list Obj.t) (V : gset Z) : list Obj.t :=
  imap (λ r o,
    if decide (Obj.addr o ∈ V ∧ objectMap objs !! Obj.addr o = Some r)
    then Obj.setMarked o else o) objs.

Definition consistent (objs : list Obj.t) (st : MarkState) : Prop :=
  heap st = markedHeap objs (visited st).

(** Every pointer out of [x] to an existing object has been followed. *)
Definition closed (objs : list Obj.t) (V : gset Z) (x : Z) : Prop :=
  ∀ y, edge objs x y → is_Some (objectMap objs !! y) → y ∈ V.

(** What a call that starts in [st] and ends in [st'] has done, given
    the addresses [from] it was started on. *)
Definition visits (objs : list Obj.t) (from : Z → Prop)
    (st st' : MarkState) : Prop :=
  consistent objs st'
  ∧ visited st ⊆ visited st'
  ∧ (∀ x, from x → is_Some (objectMap objs !! x) → x ∈ visited st')
  ∧ (∀ x, x ∈ visited st' → x ∉ visited st →
       (∃ a, from a ∧ rtc (edge objs) a x)
       ∧ is_Some (objectMap objs !! x)
       ∧ closed objs (visited st') x).

(** The measure that bounds the depth of [dfs]. *)
Definition unvisited (objs : list Obj.t) (st : MarkState) : nat :=
  size (dom (objectMap objs) ∖ visited st).

(** The set of addresses [markReachable] visits, by what determines it:
    it holds the root's address if an object is found there, is closed
    under pointers, and holds only addresses of objects reached by
    pointers from the root. *)
Definition visitedSet (objs : list Obj.t) (rootAddr : option Z)
    (V : gset Z) : Prop :=
  (∀ a, rootAddr = Some a → is_Some (objectMap objs !! a) → a ∈ V)
  ∧ (∀ x, x ∈ V → closed objs V x)
  ∧ (∀ x, x ∈ V → ∃ a, rootAddr = Some a ∧ rtc (edge objs) a x)
  ∧ (∀ x, x ∈ V → is_Some (objectMap objs !! x)).

(** *** Live space *)

Definition sumZ (l : list Z) : Z := foldr Z.add 0 l.

(** The cells an object keeps after the collection. *)
Definition liveSize (o : Obj.t) : Z :=
  if Obj.isMarked o then Obj.size o else 0.

(** Total size of the marked objects at addresses below [a]. *)
Definition liveBelow (objs : list Obj.t) (a : Z) : Z :=
  sumZ ((λ o, if decide (Obj.addr o < a) then liveSize o else 0) <$> objs).

(** Total size of all marked objects. *)
Definition liveTotal (objs : list Obj.t) : Z := sumZ (liveSize <$> objs).

(** [liveSize] of the object behind a reference. *)
Definition refSize (objs : list Obj.t) (r : nat) : Z :=
  from_option liveSize 0 (objs !! r).

(** An object without its planning result: what [planStep] preserves. *)
Definition unplanned (o : Obj.t) : Obj.t :=
  Obj.mk (Obj.id o) (Obj.addr o) (Obj.size o) (Obj.fields o) (Obj.marked o)
         None.

(** The planning loop run over a list of references from the start. *)
Definition planned (objs : list Obj.t) (l : list nat) : PlanState :=
  foldl planStep (mkPlanState objs ∅ 0) l.

(** *** The prepared and the crunched object *)

(** What [prepareCompaction] makes of an object of a heap with distinct
    addresses, given the mapping it computed. *)
Definition preparedObject (objs : list Obj.t) (m : gmap Z Z) (o : Obj.t)
    : Obj.t :=
  Obj.setFields (retarget m <$> Obj.fields o)
    (if Obj.isMarked o
     then Obj.setNewAddr (liveBelow objs (Obj.addr o)) o else o).

(** What [crunch] then makes of a marked one. *)
Definition crunchedObject (objs : list Obj.t) (m : gmap Z Z) (o : Obj.t)
    : Obj.t :=
  Obj.moved (liveBelow objs (Obj.addr o)) (preparedObject objs m o).

(** The marked objects in ascending address order. *)
Definition survivors (objs : list Obj.t) : list Obj.t :=
  filter (λ o, Obj.isMarked o = true) (sortByAddr Obj.addr objs).

(** A heap laid out in address order, no object starting before 0 or
    before the end of the one in front of it, every size positive. *)
Definition layout (objs : list Obj.t) : Prop :=
  StronglySorted (λ x y, Obj.addr x + Obj.size x ≤ Obj.addr y) objs
  ∧ Forall (λ x, 0 ≤ Obj.addr x ∧ 0 < Obj.size x) objs.

(** *** States the component can be in *)

(** The buttons: Reset, Add garbage, Previous, Next and Set as root. *)
Inductive Event : Type :=
  | Reset
  | AddGarbage (rnd : Z)
  | Previous
  | Next
  | SetAsRoot (addr : Z).

Definition handle (e : Event) (s : State) : Completion :=
  match e with
  | Reset => reset s
  | AddGarbage rnd => addGarbage rnd s
  | Previous => goPrev s
  | Next => autoRun s
  | SetAsRoot addr => changeRoot addr s
  end.

Inductive reachableState : State → Prop :=
  | reachable_initial : reachableState initialState
  | reachable_handle e s s' :
      reachableState s → handle e s = Normal s' → reachableState s'.

(** Distinct addresses and positive sizes. *)
Definition wellFormed (objs : list Obj.t) : Prop :=
  NoDup (Obj.addr <$> objs) ∧ Forall (λ o, 0 < Obj.size o) objs.

(** What holds of the objects and the mapping in each phase. *)
Definition phaseOK (ph : Phase) (objs : list Obj.t) (m : gmap Z Z) : Prop :=
  wellFormed objs
  ∧ match ph with
    | Idle => Forall (λ o, Obj.isMarked o = false) objs
    | Prepare =>
        ∃ objs0 memorySize rootAddr,
          wellFormed objs0
          ∧ objs = preparedObjects (prepareCompaction objs0 memorySize rootAddr)
          ∧ m = oldToNew (prepareCompaction objs0 memorySize rootAddr)
    | _ => True
    end.

Definition invariant (s : State) : Prop :=
  phaseOK (phase s) (objects s) (mapping s)
  ∧ Forall (λ snap, phaseOK (Snap.phase snap) (Snap.objects snap)
                      (newMap (Snap.mapping snap)))
           (history s).

(** The position of a phase in the cycle. *)
Definition phaseIndex (ph : Phase) : nat :=
  match ph with Idle => 0 | Mark => 1 | Prepare => 2 | Crunch => 3 end.

(** The history holds one snapshot for each phase left behind, in the
    order the phases were left. *)
Definition historyOK (s : State) : Prop :=
  length (history s) = phaseIndex (phase s)
  ∧ ∀ i snap, history s !! i = Some snap →
      phaseIndex (Snap.phase snap) = i.

(** Two objects that occupy the same cells. *)
Definition sameShape (x y : Obj.t) : Prop :=
  Obj.addr x = Obj.addr y ∧ Obj.size x = Obj.size y
  ∧ length (Obj.fields x) = length (Obj.fields y).

(** A laid-out heap inside the memory, every object with one field less
    than its size. *)
Definition tidy (memorySize : Z) (objs : list Obj.t) : Prop :=
  layout objs
  ∧ Forall (λ o, Obj.addr o + Obj.size o ≤ memorySize
                 ∧ Z.of_nat (length (Obj.fields o)) = Obj.size o - 1) objs.

(** What holds of the layout in each phase of the component. *)
Definition tidyPhase (ph : Phase) (objs : list Obj.t) (m : gmap Z Z) : Prop :=
  tidy 36 objs
  ∧ match ph with
    | Idle => ∃ k, lastEnd objs = 27 + 4 * k
    | Prepare =>
        ∃ objs0 memorySize rootAddr,
          tidy 36 objs0
          ∧ objs = preparedObjects (prepareCompaction objs0 memorySize rootAddr)
          ∧ m = oldToNew (prepareCompaction objs0 memorySize rootAddr)
    | _ => True
    end.

Definition tidyState (s : State) : Prop :=
  scenario s = makeDefaultScenario
  ∧ tidyPhase (phase s) (objects s) (mapping s)
  ∧ Forall (λ snap, tidyPhase (Snap.phase snap) (Snap.objects snap)
                      (newMap (Snap.mapping snap)))
           (history s).

(* ------------------------------------------------------------------ *)
(** * Properties *)

(** ** Maps from entries *)

Lemma newMap_list_to_map {V : Type} (l : list (Z * V)) :
  newMap l = list_to_map (reverse l).
Proof.
  induction l as [|e l IH] using rev_ind; [done|].
  unfold newMap in *. rewrite foldl_app, reverse_app. simpl. by rewrite IH.
Qed.

(** The entries of a map build the same map again. *)
Lemma newMap_entries {V : Type} (m : gmap Z V) : newMap (map_to_list m) = m.
Proof.
  rewrite newMap_list_to_map.
  rewrite <- (list_to_map_to_list m) at 2.
  apply list_to_map_proper.
  - rewrite fmap_reverse, reverse_Permutation. apply NoDup_fst_map_to_list.
  - apply reverse_Permutation.
Qed.

(** ** The address index built by [markReachable] *)

Lemma objectMap_snoc (l : list Obj.t) (o : Obj.t) :
  objectMap (l ++ [o]) = <[Obj.addr o := length l]> (objectMap l).
Proof.
  unfold objectMap, newMap. rewrite imap_app, foldl_app. simpl.
  by rewrite Nat.add_0_r.
Qed.

(** A reference stored under [a] points to an object whose address is [a]. *)
Lemma objectMap_lookup_Some (l : list Obj.t) (a : Z) (r : nat) :
  objectMap l !! a = Some r → ∃ o, l !! r = Some o ∧ Obj.addr o = a.
Proof.
  revert a r. induction l as [|o l IH] using rev_ind; intros a r.
  - unfold objectMap, newMap. simpl. by rewrite lookup_empty.
  - rewrite objectMap_snoc. rewrite lookup_insert. case_decide as Ha.
    + intros [= <-]. exists o. split; [|done].
      by rewrite lookup_app_r, Nat.sub_diag.
    + intros Hr. destruct (IH _ _ Hr) as (o' & Ho' & Hao').
      exists o'. split; [|done]. by apply lookup_app_l_Some.
Qed.

(** With pairwise distinct addresses every object is found under its own. *)
Lemma objectMap_lookup_NoDup (l : list Obj.t) (r : nat) (o : Obj.t) :
  NoDup (Obj.addr <$> l) → l !! r = Some o →
  objectMap l !! Obj.addr o = Some r.
Proof.
  revert r o. induction l as [|x l IH] using rev_ind; intros r o Hnd Hr.
  - done.
  - rewrite fmap_app in Hnd. apply NoDup_app in Hnd as (Hnd & Hdisj & _).
    rewrite objectMap_snoc, lookup_insert.
    apply lookup_app_Some in Hr as [Hr | [Hlen Hr]].
    + case_decide as Hx.
      * exfalso. apply (Hdisj (Obj.addr o)).
        -- apply list_elem_of_fmap. exists o. split; [done|].
           by eapply list_elem_of_lookup_2.
        -- simpl. rewrite Hx. set_solver.
      * by apply IH.
    + destruct (r - length l)%nat eqn:Hd; [|by destruct n].
      simpl in Hr. injection Hr as ->. rewrite decide_True by done.
      f_equal. lia.
Qed.

Lemma objectMap_size (l : list Obj.t) :
  (size (dom (objectMap l)) ≤ length l)%nat.
Proof.
  induction l as [|o l IH] using rev_ind.
  - unfold objectMap, newMap. simpl. by rewrite dom_empty_L, size_empty.
  - rewrite objectMap_snoc, dom_insert_L, length_app. simpl.
    rewrite size_union_alt, size_singleton.
    assert (size (dom (objectMap l) ∖ {[Obj.addr o]})
            ≤ size (dom (objectMap l)))%nat
      by (apply subseteq_size; set_solver).
    lia.
Qed.

(** ** Phase 1: the traversal *)

Section Marking.
Variable objs : list Obj.t.

Lemma markedHeap_insert (V : gset Z) (a : Z) (r : nat) (o : Obj.t) :
  objectMap objs !! a = Some r → objs !! r = Some o →
  <[r := Obj.setMarked o]> (markedHeap objs V) = markedHeap objs ({[a]} ∪ V).
Proof.
  intros Hr Ho. destruct (objectMap_lookup_Some _ _ _ Hr) as (o0 & Ho0 & Ha).
  assert (o0 = o) as -> by congruence.
  apply list_eq. intros j. destruct (decide (j = r)) as [->|Hj].
  - rewrite list_lookup_insert_eq.
    + unfold markedHeap. rewrite list_lookup_imap, Ho. simpl.
      rewrite decide_True; [done|]. rewrite Ha.
      split; [|done]. apply elem_of_union_l. by apply elem_of_singleton.
    + unfold markedHeap. rewrite length_imap. by eapply lookup_lt_Some.
  - rewrite list_lookup_insert_ne by done.
    unfold markedHeap. rewrite !list_lookup_imap.
    destruct (objs !! j) as [oj|]; [simpl|done].
    f_equal.
    destruct (decide (Obj.addr oj ∈ V
                      ∧ objectMap objs !! Obj.addr oj = Some j))
      as [[Hin Hm]|Hout];
      destruct (decide (Obj.addr oj ∈ {[a]} ∪ V
                        ∧ objectMap objs !! Obj.addr oj = Some j))
        as [[Hin' Hm']|Hout']; try done.
    + exfalso. apply Hout'. split; [by apply elem_of_union_r|done].
    + exfalso. apply elem_of_union in Hin' as [Hin'|Hin']; [|tauto].
      apply elem_of_singleton in Hin'. rewrite Hin' in Hm'. congruence.
Qed.

Lemma unvisited_mono (st st' : MarkState) :
  visited st ⊆ visited st' → (unvisited objs st' ≤ unvisited objs st)%nat.
Proof. intros Hsub. unfold unvisited. apply subseteq_size. set_solver. Qed.

Lemma unvisited_visit (a : Z) (r : nat) (h h' : list Obj.t) (V : gset Z) :
  objectMap objs !! a = Some r → a ∉ V →
  (unvisited objs (mkMarkState h' ({[a]} ∪ V)) < unvisited objs (mkMarkState h V))%nat.
Proof.
  intros Hr Ha. unfold unvisited. apply subset_size. simpl.
  assert (a ∈ dom (objectMap objs)) by (apply elem_of_dom; eauto).
  set_solver.
Qed.

(** The loop over the fields, given what one call does. *)
Lemma forEachField_spec (fuel : nat) (ps : list (option Z)) :
  (∀ a st, consistent objs st → (unvisited objs st < fuel)%nat →
     ∃ st', dfs fuel (objectMap objs) a st = Some st'
            ∧ visits objs (λ x, a = Some x) st st') →
  ∀ st, consistent objs st → (unvisited objs st < fuel)%nat →
    ∃ st', forEachField (dfs fuel (objectMap objs)) ps st = Some st'
           ∧ visits objs (λ x, Some x ∈ ps) st st'.
Proof.
  intros Hdfs. induction ps as [|p ps IH]; intros st Hc Hf.
  - exists st. split; [done|]. split; [done|]. split; [done|].
    split; [intros x Hx; by apply elem_of_nil in Hx|]. intros x Hx Hnx. done.
  - simpl. destruct p as [q|].
    + destruct (Hdfs (Some q) st Hc Hf) as (st1 & -> & Hc1 & Hs1 & Hq1 & Hn1).
      simpl.
      destruct (IH st1 Hc1) as (st' & -> & Hc' & Hs' & Hq' & Hn').
      { pose proof (unvisited_mono _ _ Hs1). lia. }
      exists st'. split; [done|]. split; [done|].
      split; [by etrans|]. split.
      * intros x Hx Hsome. apply elem_of_cons in Hx as [[= <-]|Hx].
        -- apply Hs'. by apply Hq1.
        -- by apply Hq'.
      * intros x Hx Hnx. destruct (decide (x ∈ visited st1)) as [Hx1|Hx1].
        -- destruct (Hn1 x Hx1 Hnx) as ((a & [= <-] & Hrtc) & Hsx & Hcl).
           split; [|split; [done|]].
           ++ exists q. split; [apply list_elem_of_here|done].
           ++ intros y Hy Hsy. apply Hs'. by apply Hcl.
        -- destruct (Hn' x Hx Hx1) as ((a & Ha & Hrtc) & Hsx & Hcl).
           split; [|done]. exists a. split; [by apply list_elem_of_further|done].
    + simpl. destruct (IH st Hc Hf) as (st' & -> & Hc' & Hs' & Hq' & Hn').
      exists st'. split; [done|]. split; [done|]. split; [done|]. split.
      * intros x Hx. apply elem_of_cons in Hx as [?|Hx]; [done|]. by apply Hq'.
      * intros x Hx Hnx.
        destruct (Hn' x Hx Hnx) as ((a & Ha & Hrtc) & Hsx & Hcl).
        split; [|done]. exists a. split; [by apply list_elem_of_further|done].
Qed.

(** [dfs] returns whenever the bound exceeds the number of objects not
    yet visited, and then it has marked exactly what it visited. *)
Lemma dfs_spec (fuel : nat) :
  ∀ a st, consistent objs st → (unvisited objs st < fuel)%nat →
    ∃ st', dfs fuel (objectMap objs) a st = Some st'
           ∧ visits objs (λ x, a = Some x) st st'.
Proof.
  induction fuel as [|fuel IH]; intros a st Hc Hf; [lia|].
  assert (visits objs (λ x, a = Some x) st st →
          ∃ st', Some st = Some st' ∧ visits objs (λ x, a = Some x) st st')
    as Hstay by eauto.
  simpl. destruct a as [a|].
  2:{ apply Hstay. split; [done|]. split; [done|]. split; done. }
  destruct (objectMap objs !! a) as [r|] eqn:Hr.
  2:{ apply Hstay. split; [done|]. split; [done|]. split; [|done].
      intros x [= <-]. rewrite Hr. by intros [? ?]. }
  case_decide as Ha.
  { apply Hstay. split; [done|]. split; [done|]. split; [|done].
    by intros x [= <-]. }
  destruct (objectMap_lookup_Some _ _ _ Hr) as (o & Ho & Hao).
  assert (heap st !! r = Some o) as ->.
  { rewrite Hc. unfold markedHeap. rewrite list_lookup_imap, Ho. simpl.
    rewrite decide_False; [done|]. rewrite Hao. tauto. }
  simpl.
  destruct (forEachField_spec fuel (Obj.fields o) IH
              (mkMarkState (<[r:=Obj.setMarked o]> (heap st))
                           ({[a]} ∪ visited st)))
    as (st' & -> & Hc' & Hs' & Hq' & Hn').
  { unfold consistent. simpl. rewrite Hc. by apply markedHeap_insert. }
  { pose proof (unvisited_visit a r (heap st)
                  (<[r:=Obj.setMarked o]> (heap st)) (visited st) Hr Ha).
    destruct st. simpl in *. lia. }
  simpl in Hs', Hn'.
  assert (a ∈ visited st') as Hav.
  { apply Hs'. apply elem_of_union_l. by apply elem_of_singleton. }
  exists st'. split; [done|]. split; [done|].
  split; [intros x Hx; apply Hs'; by apply elem_of_union_r|].
  split; [by intros x [= <-] _|].
  intros x Hx Hnx. destruct (decide (x = a)) as [->|Hxa].
  - split; [by exists a|]. split; [by eauto|].
    intros y (r' & o' & Hr' & Ho' & Hy) Hsy.
    apply Hq'; [|done]. congruence.
  - destruct (Hn' x Hx) as ((p & Hp & Hrtc) & Hsx & Hcl).
    { intros [Hxa'|Hxv]%elem_of_union; [|done].
      by apply elem_of_singleton in Hxa'. }
    split; [|done]. exists a. split; [done|].
    eapply rtc_l; [|done]. by exists r, o.
Qed.

(** [markReachable] always returns: the store with exactly the objects
    marked that were found under a set [V] of addresses, which holds
    the root's, is closed under pointers and holds nothing else. *)
Lemma markReachable_visited (rootAddr : option Z) :
  ∃ V, markReachable objs rootAddr = Some (markedHeap objs V)
       ∧ (∀ a, rootAddr = Some a → is_Some (objectMap objs !! a) → a ∈ V)
       ∧ (∀ x, x ∈ V → closed objs V x)
       ∧ (∀ x, x ∈ V → ∃ a, rootAddr = Some a ∧ rtc (edge objs) a x).
Proof.
  unfold markReachable. destruct rootAddr as [a|].
  - destruct (dfs_spec (S (length objs)) (Some a) (mkMarkState objs ∅))
      as (st' & -> & Hc & _ & Hroot & Hnew).
    + unfold consistent, markedHeap. simpl. apply list_eq. intros j.
      rewrite list_lookup_imap. destruct (objs !! j); [simpl|done].
      rewrite decide_False; [done|]. set_solver.
    + unfold unvisited. simpl. pose proof (objectMap_size objs) as Hsz.
      assert (size (dom (objectMap objs) ∖ (∅ : gset Z))
              ≤ size (dom (objectMap objs)))%nat as Hle
        by (apply subseteq_size; set_solver).
      lia.
    + exists (visited st'). simpl. rewrite Hc. split; [done|].
      simpl in Hnew. split; [|split].
      * intros a' [= <-]. by apply Hroot.
      * intros x Hx. apply Hnew; [done|set_solver].
      * intros x Hx. destruct (Hnew x Hx) as ((a' & -> & Hrtc) & _);
          [set_solver|]. by exists a'.
  - exists ∅. split; [|set_solver]. f_equal. unfold markedHeap.
    apply list_eq. intros j.
    rewrite list_lookup_imap. destruct (objs !! j); [simpl|done].
    rewrite decide_False; [done|]. set_solver.
Qed.

(** Addresses that stand for an object: closure gives completeness. *)
Lemma closed_rtc (V : gset Z) (a x : Z) :
  (∀ y, y ∈ V → closed objs V y) → a ∈ V →
  rtc (edge objs) a x → is_Some (objectMap objs !! x) → x ∈ V.
Proof.
  intros Hcl Ha Hrtc. revert Ha.
  induction Hrtc as [a|a b x Hab Hbx IH]; intros Ha Hx; [done|].
  assert (is_Some (objectMap objs !! b)) as Hb.
  { inversion Hbx as [|? c ? Hbc]; subst; [done|].
    destruct Hbc as (r & o & Hr & _). eauto. }
  apply IH; [|done]. by apply (Hcl a).
Qed.

Lemma reachable_in (rootAddr : option Z) (o : Obj.t) :
  reachable objs rootAddr o → o ∈ objs.
Proof. by destruct 1. Qed.

Hypothesis distinct : NoDup (Obj.addr <$> objs).

Lemma reachable_visited (rootAddr : option Z) (V : gset Z) (o : Obj.t) :
  (∀ a, rootAddr = Some a → is_Some (objectMap objs !! a) → a ∈ V) →
  (∀ x, x ∈ V → closed objs V x) →
  reachable objs rootAddr o → Obj.addr o ∈ V.
Proof.
  intros Hroot Hcl. induction 1 as [o Ho Hr|o o' Hreach IH Ho' Hf].
  - apply Hroot; [done|]. apply list_elem_of_lookup in Ho as [r Ho].
    rewrite (objectMap_lookup_NoDup _ _ _ distinct Ho). eauto.
  - apply (Hcl _ IH).
    + pose proof (reachable_in _ _ Hreach) as Ho.
      apply list_elem_of_lookup in Ho as [r Hr].
      exists r, o. by rewrite (objectMap_lookup_NoDup _ _ _ distinct Hr).
    + apply list_elem_of_lookup in Ho' as [r Ho'].
      rewrite (objectMap_lookup_NoDup _ _ _ distinct Ho'). eauto.
Qed.

Lemma visited_reachable (a x : Z) (o : Obj.t) :
  rtc (edge objs) a x → o ∈ objs → Obj.addr o = x →
  reachable objs (Some a) o.
Proof.
  intros Hrtc. revert x Hrtc o.
  apply (rtc_ind_r (λ x, ∀ o, o ∈ objs → Obj.addr o = x →
                         reachable objs (Some a) o)).
  - intros o Ho Hx. apply reachable_root; [done|]. by rewrite Hx.
  - intros b x _ (r & ob & Hr & Hob & Hf) IH o Ho Hx.
    destruct (objectMap_lookup_Some _ _ _ Hr) as (ob' & Hob' & Hb).
    assert (ob' = ob) as -> by congruence.
    apply (reachable_hop _ _ ob).
    + apply IH; [|done]. by eapply list_elem_of_lookup_2.
    + done.
    + by rewrite Hx.
Qed.

(** With distinct addresses the marked store is the input with
    [marked] set on the objects whose address was visited. *)
Lemma markedHeap_distinct (V : gset Z) (r : nat) (o' : Obj.t) :
  markedHeap objs V !! r = Some o' →
  ∃ o, objs !! r = Some o
       ∧ o' = (if decide (Obj.addr o ∈ V) then Obj.setMarked o else o).
Proof.
  unfold markedHeap. rewrite list_lookup_imap.
  destruct (objs !! r) as [o|] eqn:Ho; [simpl|done].
  intros [= <-]. exists o. split; [done|].
  rewrite (objectMap_lookup_NoDup _ _ _ distinct Ho).
  repeat case_decide; try done; tauto.
Qed.
End Marking.

(** C1.  On a heap whose objects have pairwise distinct addresses and
    are all unmarked, [markReachable] returns, and in its result an
    object is marked if and only if it is reachable from the root through
    zero or more field pointers (the root object included); nothing else
    about an object changes.  With an empty root no object is marked.  A
    field value under which no object is found is not traversed: the call
    on it returns at once with the state as it was. *)
Theorem markReachable_marks_reachable
    (objs : list Obj.t) (rootAddr : option Z) :
  NoDup (Obj.addr <$> objs) →
  Forall (λ o, Obj.isMarked o = false) objs →
  ∃ objs',
    markReachable objs rootAddr = Some objs'
    ∧ length objs' = length objs
    ∧ (∀ r o', objs' !! r = Some o' →
         ∃ o, objs !! r = Some o
              ∧ (o' = o ∨ o' = Obj.setMarked o)
              ∧ (Obj.isMarked o' = true ↔ reachable objs rootAddr o))
    ∧ (rootAddr = None → Forall (λ o', Obj.isMarked o' = false) objs')
    ∧ (∀ fuel a st, objectMap objs !! a = None →
         dfs (S fuel) (objectMap objs) (Some a) st = Some st).
Proof.
  intros Hnd Hun.
  destruct (markReachable_visited objs rootAddr) as (V & Hrun & Hroot & Hcl & Hsound).
  exists (markedHeap objs V). split; [done|].
  split; [by unfold markedHeap; rewrite length_imap|].
  assert (∀ r o', markedHeap objs V !! r = Some o' →
    ∃ o, objs !! r = Some o ∧ (o' = o ∨ o' = Obj.setMarked o)
         ∧ (Obj.isMarked o' = true ↔ reachable objs rootAddr o)) as Hobj.
  { intros r o' Ho'.
    destruct (markedHeap_distinct objs Hnd V r o' Ho') as (o & Ho & ->).
    exists o. split; [done|].
    assert (o ∈ objs) as Hin by (by eapply list_elem_of_lookup_2).
    case_decide as HV.
    - split; [by right|]. split; [|done]. intros _.
      destruct (Hsound _ HV) as (a & -> & Hrtc).
      by eapply visited_reachable.
    - split; [by left|]. split.
      + intros Hm. rewrite Forall_forall in Hun. rewrite (Hun o Hin) in Hm. done.
      + intros Hreach. exfalso. apply HV.
        by eapply reachable_visited. }
  split; [done|]. split.
  - intros ->. apply Forall_forall. intros o' Ho'.
    apply list_elem_of_lookup in Ho' as [r Ho'].
    destruct (Hobj r o' Ho') as (o & Ho & _ & Hiff).
    apply not_true_is_false. intros Hm.
    apply Hiff in Hm. clear -Hm. induction Hm; done.
  - intros fuel a st Ha. simpl. by rewrite Ha.
Qed.

Lemma markReachable_marks_reachable_witness :
  ∃ objs',
    markReachable (Scenario.objects makeDefaultScenario) (Some 2) = Some objs'
    ∧ length objs' = length (Scenario.objects makeDefaultScenario)
    ∧ (∀ r o', objs' !! r = Some o' →
         ∃ o, Scenario.objects makeDefaultScenario !! r = Some o
              ∧ (o' = o ∨ o' = Obj.setMarked o)
              ∧ (Obj.isMarked o' = true
                 ↔ reachable (Scenario.objects makeDefaultScenario) (Some 2) o))
    ∧ (Some 2 = None → Forall (λ o', Obj.isMarked o' = false) objs')
    ∧ (∀ fuel a st,
         objectMap (Scenario.objects makeDefaultScenario) !! a = None →
         dfs (S fuel) (objectMap (Scenario.objects makeDefaultScenario))
             (Some a) st = Some st).
Proof.
  apply (markReachable_marks_reachable
           (Scenario.objects makeDefaultScenario) (Some 2)).
  - apply (bool_decide_unpack _). vm_compute. exact I.
  - apply (bool_decide_unpack _). vm_compute. exact I.
Defined.

(** A cycle and a pointer to no object: the traversal ends, marks both
    objects of the cycle and leaves the third alone. *)
Example markReachable_cycle_dangling :
  (λ objs : list Obj.t, Obj.isMarked <$> objs) <$>
    markReachable
      [ Obj.mk "A" 0 3 [Some 5; Some 99] None None;
        Obj.mk "B" 5 2 [Some 0] None None;
        Obj.mk "C" 9 2 [Some 0] None None ] (Some 5)
  = Some [true; true; false].
Proof. vm_compute. reflexivity. Qed.

(** ** Sorting by address *)

Section SortFacts.
Context {T : Type} (key : T → Z).

Lemma insertByAddr_perm (x : T) (l : list T) :
  insertByAddr key x l ≡ₚ x :: l.
Proof.
  induction l as [|y l IH]; [done|]. simpl. case_decide; [|done].
  rewrite IH. apply Permutation_swap.
Qed.

Lemma sortByAddr_perm (l : list T) : sortByAddr key l ≡ₚ l.
Proof.
  induction l as [|x l IH]; [done|]. unfold sortByAddr in *. simpl.
  by rewrite insertByAddr_perm, IH.
Qed.

Lemma insertByAddr_sorted (x : T) (l : list T) :
  StronglySorted (λ a b, key a ≤ key b) l →
  StronglySorted (λ a b, key a ≤ key b) (insertByAddr key x l).
Proof.
  induction 1 as [|y l Hs IH Hy]; simpl.
  - repeat constructor.
  - case_decide as Hlt.
    + constructor; [done|]. rewrite insertByAddr_perm.
      constructor; [lia|done].
    + constructor; [by constructor|].
      constructor; [lia|]. eapply Forall_impl; [done|]. simpl. lia.
Qed.

Lemma sortByAddr_sorted (l : list T) :
  StronglySorted (λ a b, key a ≤ key b) (sortByAddr key l).
Proof.
  induction l as [|x l IH]; [constructor|].
  by apply insertByAddr_sorted.
Qed.

(** Distinct keys make the order strict. *)
Lemma sortByAddr_strict (l : list T) :
  NoDup (key <$> l) →
  StronglySorted (λ a b, key a < key b) (sortByAddr key l).
Proof.
  intros Hnd.
  assert (NoDup (key <$> sortByAddr key l)) as Hnd'
    by (by rewrite sortByAddr_perm).
  pose proof (sortByAddr_sorted l) as Hs.
  induction Hs as [|x s Hs IH Hx]; [constructor|].
  rewrite fmap_cons in Hnd'. apply NoDup_cons in Hnd' as [Hx' Hnd'].
  constructor; [by apply IH|].
  apply Forall_forall. intros y Hy.
  rewrite Forall_forall in Hx. specialize (Hx y Hy).
  assert (key x ≠ key y); [|lia].
  intros Heq. apply Hx'. rewrite Heq. apply list_elem_of_fmap. eauto.
Qed.
End SortFacts.

Lemma sumZ_app (l1 l2 : list Z) : sumZ (l1 ++ l2) = sumZ l1 + sumZ l2.
Proof. induction l1 as [|x l1 IH]; simpl; [done|]. rewrite IH. lia. Qed.

Lemma sumZ_perm (l1 l2 : list Z) : l1 ≡ₚ l2 → sumZ l1 = sumZ l2.
Proof. induction 1; simpl; lia. Qed.

Lemma sumZ_zero (l : list Z) : Forall (λ x, x = 0) l → sumZ l = 0.
Proof. induction 1; simpl; lia. Qed.

(** Reading every reference in array order gives the array. *)
Lemma refs_lookup {A : Type} (objs : list Obj.t) (g : option Obj.t → A) :
  (λ r, g (objs !! r)) <$> refs objs = (λ o, g (Some o)) <$> objs.
Proof.
  unfold refs. induction objs as [|o objs IH] using rev_ind; [done|].
  rewrite length_app. simpl. rewrite Nat.add_1_r, seq_S, !fmap_app. simpl.
  rewrite lookup_app_r, Nat.sub_diag by done. simpl. f_equal.
  rewrite <- IH. apply list_fmap_ext. intros i r Hr.
  apply lookup_seq in Hr as [-> Hlt]. simpl. by rewrite lookup_app_l.
Qed.

(** ** Phase 2: the planning loop *)

Lemma unplanned_setNewAddr (n : Z) (o : Obj.t) :
  unplanned (Obj.setNewAddr n o) = unplanned o.
Proof. done. Qed.

Lemma unplanned_inv (o o' : Obj.t) :
  unplanned o' = unplanned o →
  Obj.id o' = Obj.id o ∧ Obj.addr o' = Obj.addr o ∧ Obj.size o' = Obj.size o
  ∧ Obj.fields o' = Obj.fields o ∧ Obj.marked o' = Obj.marked o
  ∧ Obj.isMarked o' = Obj.isMarked o.
Proof.
  destruct o, o'. unfold unplanned, Obj.isMarked. simpl.
  intros [= -> -> -> -> ->]. done.
Qed.

Lemma unplanned_lookup (h h' : list Obj.t) (r : nat) (o : Obj.t) :
  unplanned <$> h' = unplanned <$> h → h !! r = Some o →
  ∃ o', h' !! r = Some o' ∧ unplanned o' = unplanned o.
Proof.
  intros Heq Ho. apply (f_equal (λ l, l !! r)) in Heq.
  rewrite !list_lookup_fmap, Ho in Heq. simpl in Heq.
  destruct (h' !! r) as [o'|]; [|done]. exists o'. split; [done|].
  simpl in Heq. congruence.
Qed.

(** A step of the loop changes nothing of an object but [newAddr]. *)
Lemma planStep_unplanned (st : PlanState) (r : nat) :
  unplanned <$> planHeap (planStep st r) = unplanned <$> planHeap st.
Proof.
  unfold planStep. destruct (planHeap st !! r) as [o|] eqn:Ho; [|done].
  destruct (Obj.isMarked o); [simpl|done].
  rewrite list_fmap_insert, unplanned_setNewAddr.
  apply list_insert_id. by rewrite list_lookup_fmap, Ho.
Qed.

Lemma plan_unplanned (l : list nat) (st : PlanState) :
  unplanned <$> planHeap (foldl planStep st l) = unplanned <$> planHeap st.
Proof.
  revert st. induction l as [|r l IH]; intros st; [done|]. simpl.
  by rewrite IH, planStep_unplanned.
Qed.

(** The loop never removes a key, and gives one to every marked object
    it meets. *)
Lemma plan_keys (l : list nat) (st : PlanState) (a : Z) :
  is_Some (planMap st !! a)
  ∨ (∃ r o, r ∈ l ∧ planHeap st !! r = Some o
            ∧ Obj.isMarked o = true ∧ Obj.addr o = a) →
  is_Some (planMap (foldl planStep st l) !! a).
Proof.
  revert st. induction l as [|r0 l IH]; intros st.
  - intros [?|(r & o & Hr & _)]; [done|]. by apply elem_of_nil in Hr.
  - intros Hcase. simpl. apply IH.
    assert (is_Some (planMap st !! a) → is_Some (planMap (planStep st r0) !! a))
      as Hkeep.
    { unfold planStep. destruct (planHeap st !! r0) as [o0|]; [|done].
      destruct (Obj.isMarked o0); [simpl|done].
      intros Hs. rewrite lookup_insert. by case_decide. }
    destruct Hcase as [Hs|(r & o & Hr & Ho & Hm & Ha)]; [by left; apply Hkeep|].
    apply elem_of_cons in Hr as [->|Hr].
    + left. unfold planStep. rewrite Ho, Hm. simpl.
      rewrite Ha, lookup_insert_eq. eauto.
    + right. pose proof (planStep_unplanned st r0) as Hun.
      destruct (unplanned_lookup _ _ r o Hun Ho) as (o' & Ho' & Heq).
      apply unplanned_inv in Heq as (_ & Ha' & _ & _ & _ & Hm').
      exists r, o'. repeat split; [done|done|congruence|congruence].
Qed.

Section Planning.
Variable objs : list Obj.t.
Hypothesis distinct : NoDup (Obj.addr <$> objs).

Lemma distinct_ref (r r' : nat) (o o' : Obj.t) :
  objs !! r = Some o → objs !! r' = Some o' →
  Obj.addr o = Obj.addr o' → r = r'.
Proof.
  intros Hr Hr' Ha. apply (NoDup_lookup _ r r' (Obj.addr o) distinct).
  - by rewrite list_lookup_fmap, Hr.
  - by rewrite list_lookup_fmap, Hr', Ha.
Qed.

(** The loop after a duplicate-free list of references: the cursor is
    the live size met so far, a marked object met at position [k] has
    been given the cursor's value at that time, and nothing else has
    happened. *)
Lemma planned_prefix (l : list nat) :
  NoDup l →
  planCursor (planned objs l) = sumZ (refSize objs <$> l)
  ∧ (∀ k r o, l !! k = Some r → objs !! r = Some o →
       Obj.isMarked o = true →
       planHeap (planned objs l) !! r
         = Some (Obj.setNewAddr (sumZ (refSize objs <$> take k l)) o)
       ∧ planMap (planned objs l) !! Obj.addr o
         = Some (sumZ (refSize objs <$> take k l)))
  ∧ (∀ r o, objs !! r = Some o → r ∉ l ∨ Obj.isMarked o = false →
       planHeap (planned objs l) !! r = Some o
       ∧ planMap (planned objs l) !! Obj.addr o = None).
Proof.
  induction l as [|r0 l IH] using rev_ind; intros Hnd.
  - unfold planned. simpl. split; [done|]. split; [done|].
    intros r o Ho _. by rewrite lookup_empty.
  - apply NoDup_app in Hnd as (Hnd & Hr0 & _).
    assert (r0 ∉ l) as Hr0l.
    { intros Hin. apply (Hr0 _ Hin). apply list_elem_of_here. }
    destruct (IH Hnd) as (Hcur & Hmet & Hrest). clear IH Hr0.
    unfold planned in *. rewrite foldl_app. simpl.
    set (st := foldl planStep (mkPlanState objs ∅ 0) l) in *.
    rewrite fmap_app, sumZ_app. simpl.
    assert (∀ k r, (l ++ [r0]) !! k = Some r →
              (k < length l)%nat ∧ l !! k = Some r
              ∨ k = length l ∧ r = r0) as Hsplit.
    { intros k r Hk. apply lookup_app_Some in Hk as [Hk|[Hge Hk]].
      - left. split; [by eapply lookup_lt_Some|done].
      - right. destruct (k - length l)%nat eqn:Hd; [|by destruct n].
        simpl in Hk. split; [lia|congruence]. }
    destruct (objs !! r0) as [o0|] eqn:Ho0.
    2:{ assert (planStep st r0 = st) as ->.
        { unfold planStep.
          destruct (planHeap st !! r0) as [o'|] eqn:Ho'; [|done].
          pose proof (plan_unplanned l (mkPlanState objs ∅ 0)) as Hun.
          apply (f_equal (λ h, h !! r0)) in Hun. fold st in Hun.
          simpl in Hun. by rewrite !list_lookup_fmap, Ho', Ho0 in Hun. }
        unfold refSize at 2. rewrite Ho0. simpl.
        split; [lia|]. split.
        - intros k r o Hk Ho Hm.
          destruct (Hsplit k r Hk) as [[Hlt Hk']|[-> ->]]; [|congruence].
          rewrite take_app_le by lia. by apply Hmet.
        - intros r o Ho Hcase. apply Hrest; [done|].
          destruct Hcase as [Hnin|?]; [left|by right].
          intros Hin. apply Hnin. apply elem_of_app. by left. }
    destruct (Hrest r0 o0 Ho0 (or_introl Hr0l)) as [Hh0 _].
    unfold refSize at 2. rewrite Ho0. simpl. unfold liveSize.
    unfold planStep. rewrite Hh0.
    destruct (Obj.isMarked o0) eqn:Hm0.
    + simpl. split; [lia|]. split.
      * intros k r o Hk Ho Hm.
        destruct (Hsplit k r Hk) as [[Hlt Hk']|[-> ->]].
        -- assert (r ≠ r0) as Hne.
           { intros ->. apply Hr0l. by eapply list_elem_of_lookup_2. }
           assert (Obj.addr o0 ≠ Obj.addr o) as Hna.
           { intros Heq. apply Hne. symmetry. by eapply distinct_ref. }
           rewrite take_app_le by lia.
           rewrite list_lookup_insert_ne, lookup_insert_ne by done.
           by apply Hmet.
        -- assert (o = o0) as -> by congruence.
           rewrite take_app_le, firstn_all by lia.
           rewrite list_lookup_insert_eq, lookup_insert_eq, Hcur.
           ++ done.
           ++ by eapply lookup_lt_Some.
      * intros r o Ho Hcase.
        assert (r ≠ r0) as Hne.
        { intros ->. destruct Hcase as [Hnin|Hm].
          - apply Hnin. apply elem_of_app. right. apply list_elem_of_here.
          - congruence. }
        assert (Obj.addr o0 ≠ Obj.addr o) as Hna.
        { intros Heq. apply Hne. symmetry. by eapply distinct_ref. }
        rewrite list_lookup_insert_ne, lookup_insert_ne by done.
        apply Hrest; [done|]. destruct Hcase as [Hnin|?]; [left|by right].
        intros Hin. apply Hnin. apply elem_of_app. by left.
    + split; [lia|]. split.
      * intros k r o Hk Ho Hm.
        destruct (Hsplit k r Hk) as [[Hlt Hk']|[-> ->]]; [|congruence].
        rewrite take_app_le by lia. by apply Hmet.
      * intros r o Ho Hcase.
        destruct (decide (r = r0)) as [->|Hne].
        -- assert (o = o0) as -> by congruence.
           destruct (Hrest r0 o0 Ho0 (or_introl Hr0l)) as [? ?]. done.
        -- apply Hrest; [done|]. destruct Hcase as [Hnin|?]; [left|by right].
           intros Hin. apply Hnin. apply elem_of_app. by left.
Qed.

Lemma sortedRefs_strict :
  StronglySorted (λ r r', addrAt objs r < addrAt objs r')
                 (sortByAddr (addrAt objs) (refs objs)).
Proof.
  apply sortByAddr_strict. unfold addrAt.
  by rewrite (refs_lookup objs (from_option Obj.addr 0)).
Qed.

(** In address order, what lies before an object is what lies below it. *)
Lemma prefix_liveBelow (k r : nat) (o : Obj.t) :
  sortByAddr (addrAt objs) (refs objs) !! k = Some r →
  objs !! r = Some o →
  sumZ (refSize objs <$> take k (sortByAddr (addrAt objs) (refs objs)))
  = liveBelow objs (Obj.addr o).
Proof.
  intros Hk Ho. pose proof sortedRefs_strict as Hs.
  set (l := sortByAddr (addrAt objs) (refs objs)) in *.
  set (below := λ x : option Obj.t,
         if decide (from_option Obj.addr 0 x < Obj.addr o)
         then from_option liveSize 0 x else 0).
  assert (liveBelow objs (Obj.addr o)
          = sumZ ((λ r', below (objs !! r')) <$> l)) as ->.
  { unfold liveBelow.
    transitivity (sumZ ((λ o', below (Some o')) <$> objs)); [done|].
    rewrite <- (refs_lookup objs below).
    apply sumZ_perm. symmetry. apply fmap_Permutation.
    apply sortByAddr_perm. }
  assert (addrAt objs r = Obj.addr o) as Har
    by (unfold addrAt; by rewrite Ho).
  pose proof (take_drop_middle l k r Hk) as Hmid.
  rewrite <- Hmid in Hs.
  transitivity (sumZ ((λ r', below (objs !! r'))
                        <$> (take k l ++ r :: drop (S k) l)));
    [|by rewrite Hmid].
  rewrite fmap_app, sumZ_app. rewrite fmap_cons. simpl.
  assert (sumZ ((λ r', below (objs !! r')) <$> take k l)
          = sumZ (refSize objs <$> take k l)) as ->.
  { f_equal. apply list_fmap_ext. intros i r' Hr'.
    unfold below, refSize. rewrite decide_True; [done|].
    fold (addrAt objs r'). rewrite <- Har.
    apply (StronglySorted_app_1_elem_of _ _ _ _ _ Hs).
    - by eapply list_elem_of_lookup_2.
    - apply list_elem_of_here. }
  apply StronglySorted_app_1_r in Hs.
  apply StronglySorted_inv in Hs as [_ Hlater].
  rewrite (sumZ_zero ((λ r', below (objs !! r')) <$> drop (S k) l)).
  - assert (below (objs !! r) = 0) as ->; [|lia].
    unfold below. rewrite Ho. simpl. rewrite decide_False; lia.
  - apply Forall_fmap. eapply Forall_impl; [exact Hlater|].
    intros r' Hr'. simpl. unfold below. rewrite decide_False; [done|].
    unfold addrAt in Hr', Har. lia.
Qed.

Lemma sorted_liveTotal :
  sumZ (refSize objs <$> sortByAddr (addrAt objs) (refs objs))
  = liveTotal objs.
Proof.
  unfold liveTotal, refSize.
  transitivity (sumZ ((λ o, from_option liveSize 0 (Some o)) <$> objs));
    [|done].
  rewrite <- (refs_lookup objs (from_option liveSize 0)).
  apply sumZ_perm, fmap_Permutation, sortByAddr_perm.
Qed.

(** The planning loop of [prepareCompaction], in terms of the input. *)
Lemma planned_sorted :
  let st := planned objs (sortByAddr (addrAt objs) (refs objs)) in
  planCursor st = liveTotal objs
  ∧ (∀ r o, objs !! r = Some o → Obj.isMarked o = true →
       planHeap st !! r
         = Some (Obj.setNewAddr (liveBelow objs (Obj.addr o)) o)
       ∧ planMap st !! Obj.addr o = Some (liveBelow objs (Obj.addr o)))
  ∧ (∀ r o, objs !! r = Some o → Obj.isMarked o = false →
       planHeap st !! r = Some o ∧ planMap st !! Obj.addr o = None).
Proof.
  set (l := sortByAddr (addrAt objs) (refs objs)).
  assert (NoDup l) as Hnd.
  { unfold l. rewrite sortByAddr_perm. apply NoDup_seq. }
  destruct (planned_prefix l Hnd) as (Hcur & Hmet & Hrest).
  simpl. split; [by rewrite Hcur; apply sorted_liveTotal|]. split.
  - intros r o Ho Hm.
    assert (r ∈ l) as Hin.
    { unfold l. rewrite sortByAddr_perm. apply elem_of_seq.
      apply lookup_lt_Some in Ho. lia. }
    apply list_elem_of_lookup in Hin as [k Hk].
    rewrite <- (prefix_liveBelow k r o Hk Ho). by apply Hmet.
  - intros r o Ho Hm. apply Hrest; [done|by right].
Qed.
End Planning.

(** ** Phase 2: [prepareCompaction] *)

(** Nothing lies below the lowest address. *)
Lemma liveBelow_none (l : list Obj.t) (a : Z) :
  Forall (λ y, a ≤ Obj.addr y) l → liveBelow l a = 0.
Proof.
  intros Hl. unfold liveBelow. apply sumZ_zero, Forall_fmap.
  eapply Forall_impl; [exact Hl|]. intros y Hy. simpl in *.
  rewrite decide_False; [done|lia].
Qed.

(** In a list in strict address order, the live size below the [i]-th
    marked object is the size of the [i] marked objects before it. *)
Lemma liveBelow_prefix (l : list Obj.t) (i : nat) (o : Obj.t) :
  StronglySorted (λ x y, Obj.addr x < Obj.addr y) l →
  filter (λ o, Obj.isMarked o = true) l !! i = Some o →
  liveBelow l (Obj.addr o)
  = sumZ (Obj.size <$> take i (filter (λ o, Obj.isMarked o = true) l)).
Proof.
  intros Hs. revert i. induction Hs as [|x l Hs IH Hx]; intros i Hi; [done|].
  assert (liveBelow (x :: l) (Obj.addr o)
          = (if decide (Obj.addr x < Obj.addr o) then liveSize x else 0)
            + liveBelow l (Obj.addr o)) as -> by done.
  destruct (Obj.isMarked x) eqn:Hmx.
  - rewrite filter_cons_True in Hi |- * by done.
    destruct i as [|j]; simpl in Hi.
    + injection Hi as <-. rewrite decide_False by lia.
      rewrite liveBelow_none; [done|].
      eapply Forall_impl; [exact Hx|]. simpl. lia.
    + assert (o ∈ l) as Ho.
      { apply list_elem_of_lookup_2 in Hi.
        by apply list_elem_of_filter in Hi as [_ ?]. }
      rewrite Forall_forall in Hx. specialize (Hx o Ho).
      rewrite decide_True by done. rewrite (IH j Hi). simpl.
      unfold liveSize. by rewrite Hmx.
  - rewrite filter_cons_False in Hi |- * by (by rewrite Hmx).
    rewrite (IH i Hi). unfold liveSize. rewrite Hmx.
    by destruct (decide _).
Qed.

Lemma liveBelow_perm (l l' : list Obj.t) (a : Z) :
  l ≡ₚ l' → liveBelow l a = liveBelow l' a.
Proof. intros Hp. unfold liveBelow. by apply sumZ_perm, fmap_Permutation. Qed.

Lemma prepared_lookup (objs : list Obj.t) (memorySize : Z)
    (rootAddr : option Z) (r : nat) :
  let st := planned objs (sortByAddr (addrAt objs) (refs objs)) in
  preparedObjects (prepareCompaction objs memorySize rootAddr) !! r
  = (λ o, Obj.setFields (retarget (planMap st) <$> Obj.fields o) o)
      <$> planHeap st !! r.
Proof. unfold prepareCompaction. simpl. by rewrite list_lookup_fmap. Qed.

(** C3.  On a heap with pairwise distinct addresses, [prepareCompaction]
    gives every marked object, as planned address and as mapping entry
    under its address, the total size of the marked objects at lower
    addresses.  An unmarked object gets no mapping entry, keeps its
    [newAddr] and adds nothing to the cursor, and [nextFree] is the final
    cursor, the total size of the marked objects.  Taken in ascending
    address order, the planned address of the [i]-th marked object is the
    total size of the [i] marked objects before it: the first is planned
    at 0 and each next one where the previous one ends. *)
Theorem prepareCompaction_dense
    (objs : list Obj.t) (memorySize : Z) (rootAddr : option Z) :
  NoDup (Obj.addr <$> objs) →
  let p := prepareCompaction objs memorySize rootAddr in
  (∀ r o, objs !! r = Some o → Obj.isMarked o = true →
     (∃ o', preparedObjects p !! r = Some o'
            ∧ Obj.newAddr o' = Some (Some (liveBelow objs (Obj.addr o))))
     ∧ oldToNew p !! Obj.addr o = Some (liveBelow objs (Obj.addr o)))
  ∧ (∀ r o, objs !! r = Some o → Obj.isMarked o = false →
     (∃ o', preparedObjects p !! r = Some o'
            ∧ Obj.newAddr o' = Obj.newAddr o)
     ∧ oldToNew p !! Obj.addr o = None)
  ∧ preparedNextFree p = liveTotal objs
  ∧ (∀ i o,
       filter (λ o, Obj.isMarked o = true) (sortByAddr Obj.addr objs) !! i
         = Some o →
       liveBelow objs (Obj.addr o)
       = sumZ (Obj.size <$> take i (filter (λ o, Obj.isMarked o = true)
                                      (sortByAddr Obj.addr objs)))).
Proof.
  intros Hnd p.
  destruct (planned_sorted objs Hnd) as (Hcur & Hmarked & Hrest).
  split; [|split; [|split]].
  - intros r o Ho Hm. destruct (Hmarked r o Ho Hm) as [Hh Hmap].
    split; [|done]. unfold p. rewrite prepared_lookup, Hh. simpl. eauto.
  - intros r o Ho Hm. destruct (Hrest r o Ho Hm) as [Hh Hmap].
    split; [|done]. unfold p. rewrite prepared_lookup, Hh. simpl. eauto.
  - done.
  - intros i o Hi.
    rewrite (liveBelow_perm objs (sortByAddr Obj.addr objs))
      by (by rewrite sortByAddr_perm).
    apply liveBelow_prefix; [|done]. by apply sortByAddr_strict.
Qed.

Lemma prepareCompaction_dense_witness :
  let objs := [ Obj.mk "A" 2 4 [Some 8; Some 14; None] (Some true) None;
                Obj.mk "D" 22 5 [None; None; None; None] None None;
                Obj.mk "B" 8 3 [Some 14; None] (Some true) None ] in
  let p := prepareCompaction objs 36 (Some 2) in
  (∀ r o, objs !! r = Some o → Obj.isMarked o = true →
     (∃ o', preparedObjects p !! r = Some o'
            ∧ Obj.newAddr o' = Some (Some (liveBelow objs (Obj.addr o))))
     ∧ oldToNew p !! Obj.addr o = Some (liveBelow objs (Obj.addr o)))
  ∧ (∀ r o, objs !! r = Some o → Obj.isMarked o = false →
     (∃ o', preparedObjects p !! r = Some o'
            ∧ Obj.newAddr o' = Obj.newAddr o)
     ∧ oldToNew p !! Obj.addr o = None)
  ∧ preparedNextFree p = liveTotal objs
  ∧ (∀ i o,
       filter (λ o, Obj.isMarked o = true) (sortByAddr Obj.addr objs) !! i
         = Some o →
       liveBelow objs (Obj.addr o)
       = sumZ (Obj.size <$> take i (filter (λ o, Obj.isMarked o = true)
                                      (sortByAddr Obj.addr objs)))).
Proof.
  intros objs. apply (prepareCompaction_dense objs 36 (Some 2)).
  apply (bool_decide_unpack _). vm_compute. exact I.
Defined.

(** C4.  On a heap with pairwise distinct addresses, after
    [prepareCompaction] a field that held the address of a marked object
    holds that object's planned address, which is its mapping entry; a
    field whose value is no key of the mapping, and an empty field, is
    left as it was; the new root is the mapping entry of the root when
    there is one and empty otherwise. *)
Theorem prepareCompaction_retargets
    (objs : list Obj.t) (memorySize : Z) (rootAddr : option Z) :
  NoDup (Obj.addr <$> objs) →
  let p := prepareCompaction objs memorySize rootAddr in
  (∀ r o j rt t, objs !! r = Some o → Obj.fields o !! j = Some (Some (Obj.addr t)) →
     objs !! rt = Some t → Obj.isMarked t = true →
     ∃ o' t' n, preparedObjects p !! r = Some o'
                ∧ preparedObjects p !! rt = Some t'
                ∧ Obj.newAddr t' = Some (Some n)
                ∧ oldToNew p !! Obj.addr t = Some n
                ∧ Obj.fields o' !! j = Some (Some n))
  ∧ (∀ r o j c, objs !! r = Some o → Obj.fields o !! j = Some c →
     (∀ a, c = Some a → oldToNew p !! a = None) →
     ∃ o', preparedObjects p !! r = Some o' ∧ Obj.fields o' !! j = Some c)
  ∧ (∀ r o, objs !! r = Some o →
     ∃ o', preparedObjects p !! r = Some o'
           ∧ length (Obj.fields o') = length (Obj.fields o))
  ∧ (∀ a n, rootAddr = Some a → oldToNew p !! a = Some n →
     newRoot p = Some n)
  ∧ (∀ a, rootAddr = Some a → oldToNew p !! a = None → newRoot p = None)
  ∧ (rootAddr = None → newRoot p = None).
Proof.
  intros Hnd p.
  destruct (planned_sorted objs Hnd) as (Hcur & Hmarked & Hrest).
  set (st := planned objs (sortByAddr (addrAt objs) (refs objs))) in *.
  assert (∀ r o, objs !! r = Some o →
    ∃ o', preparedObjects p !! r = Some o'
          ∧ Obj.fields o' = retarget (planMap st) <$> Obj.fields o
          ∧ (Obj.isMarked o = true →
             Obj.newAddr o' = Some (Some (liveBelow objs (Obj.addr o))))) as Hobj.
  { intros r o Ho. unfold p. rewrite prepared_lookup. fold st.
    destruct (Obj.isMarked o) eqn:Hm.
    - destruct (Hmarked r o Ho Hm) as [-> _]. simpl.
      eexists. split; [done|]. by split.
    - destruct (Hrest r o Ho Hm) as [-> _]. simpl.
      eexists. split; [done|]. by split. }
  split; [|split; [|split; [|split; [|split]]]].
  - intros r o j rt t Ho Hj Ht Hm.
    destruct (Hobj r o Ho) as (o' & Ho' & Hf' & _).
    destruct (Hobj rt t Ht) as (t' & Ht' & _ & Hn'). specialize (Hn' Hm).
    destruct (Hmarked rt t Ht Hm) as [_ Hmap].
    exists o', t', (liveBelow objs (Obj.addr t)).
    split; [done|]. split; [done|]. split; [done|]. split; [done|].
    rewrite Hf', list_lookup_fmap, Hj. simpl. by rewrite Hmap.
  - intros r o j c Ho Hj Hc.
    destruct (Hobj r o Ho) as (o' & Ho' & Hf' & _).
    exists o'. split; [done|].
    rewrite Hf', list_lookup_fmap, Hj. simpl. f_equal.
    destruct c as [a|]; [simpl|done]. change (planMap st) with (oldToNew p).
    by rewrite (Hc a).
  - intros r o Ho. destruct (Hobj r o Ho) as (o' & Ho' & Hf' & _).
    exists o'. split; [done|]. by rewrite Hf', length_fmap.
  - intros a n -> Hn. unfold p, prepareCompaction in *. simpl in *.
    by rewrite Hn.
  - intros a -> Hn. unfold p, prepareCompaction in *. simpl in *.
    by rewrite Hn.
  - by intros ->.
Qed.

Lemma prepareCompaction_retargets_witness :
  let objs := [ Obj.mk "A" 2 4 [Some 8; Some 14; None] (Some true) None;
                Obj.mk "D" 22 5 [None; None; None; None] None None;
                Obj.mk "B" 8 3 [Some 14; None] (Some true) None ] in
  let p := prepareCompaction objs 36 (Some 2) in
  (∀ r o j rt t, objs !! r = Some o → Obj.fields o !! j = Some (Some (Obj.addr t)) →
     objs !! rt = Some t → Obj.isMarked t = true →
     ∃ o' t' n, preparedObjects p !! r = Some o'
                ∧ preparedObjects p !! rt = Some t'
                ∧ Obj.newAddr t' = Some (Some n)
                ∧ oldToNew p !! Obj.addr t = Some n
                ∧ Obj.fields o' !! j = Some (Some n))
  ∧ (∀ r o j c, objs !! r = Some o → Obj.fields o !! j = Some c →
     (∀ a, c = Some a → oldToNew p !! a = None) →
     ∃ o', preparedObjects p !! r = Some o' ∧ Obj.fields o' !! j = Some c)
  ∧ (∀ r o, objs !! r = Some o →
     ∃ o', preparedObjects p !! r = Some o'
           ∧ length (Obj.fields o') = length (Obj.fields o))
  ∧ (∀ a n, Some 2 = Some a → oldToNew p !! a = Some n →
     newRoot p = Some n)
  ∧ (∀ a, Some 2 = Some a → oldToNew p !! a = None → newRoot p = None)
  ∧ (Some 2 = None → newRoot p = None).
Proof.
  intros objs. apply (prepareCompaction_retargets objs 36 (Some 2)).
  apply (bool_decide_unpack _). vm_compute. exact I.
Defined.

(** What [prepareCompaction] leaves of an object, on any heap. *)
Lemma prepared_frame (objs : list Obj.t) (memorySize : Z)
    (rootAddr : option Z) (r : nat) :
  let p := prepareCompaction objs memorySize rootAddr in
  (∀ o, objs !! r = Some o →
     ∃ o', preparedObjects p !! r = Some o'
           ∧ Obj.id o' = Obj.id o ∧ Obj.addr o' = Obj.addr o
           ∧ Obj.size o' = Obj.size o ∧ Obj.marked o' = Obj.marked o
           ∧ Obj.isMarked o' = Obj.isMarked o
           ∧ length (Obj.fields o') = length (Obj.fields o))
  ∧ (∀ o', preparedObjects p !! r = Some o' → is_Some (objs !! r)).
Proof.
  intros p. unfold p. rewrite prepared_lookup.
  set (st := planned objs (sortByAddr (addrAt objs) (refs objs))).
  pose proof (plan_unplanned (sortByAddr (addrAt objs) (refs objs))
                (mkPlanState objs ∅ 0)) as Hun.
  fold (planned objs (sortByAddr (addrAt objs) (refs objs))) in Hun.
  fold st in Hun. simpl in Hun. split.
  - intros o Ho.
    destruct (unplanned_lookup _ _ r o Hun Ho) as (o1 & -> & Heq).
    apply unplanned_inv in Heq as (? & ? & ? & Hf & ? & ?). simpl.
    eexists. split; [done|]. simpl. rewrite length_fmap, Hf. done.
  - intros o' Ho'. apply (f_equal (λ h, h !! r)) in Hun.
    rewrite !list_lookup_fmap in Hun.
    destruct (planHeap st !! r); [|done].
    destruct (objs !! r); [eauto|done].
Qed.

(** C10.  [prepareCompaction] neither adds nor removes an object and
    keeps every object in its place with its id, address, size, mark and
    number of fields; [doPrepare] stores this result, and leaves the
    scenario (the memory size) as it is. *)
Theorem prepare_moves_nothing
    (objs : list Obj.t) (memorySize : Z) (rootAddr : option Z) (s : State) :
  let p := prepareCompaction objs memorySize rootAddr in
  length (preparedObjects p) = length objs
  ∧ (∀ r o, objs !! r = Some o →
       ∃ o', preparedObjects p !! r = Some o'
             ∧ Obj.id o' = Obj.id o ∧ Obj.addr o' = Obj.addr o
             ∧ Obj.size o' = Obj.size o ∧ Obj.marked o' = Obj.marked o
             ∧ length (Obj.fields o') = length (Obj.fields o))
  ∧ ∃ s', doPrepare s = Normal s'
          ∧ scenario s' = scenario s
          ∧ (objects s' = objects s
             ∨ objects s' = preparedObjects
                  (prepareCompaction (objects s)
                     (Scenario.memorySize (scenario s)) (root s))).
Proof.
  intros p. split; [|split].
  - unfold p, prepareCompaction. simpl. rewrite length_fmap.
    pose proof (plan_unplanned (sortByAddr (addrAt objs) (refs objs))
                  (mkPlanState objs ∅ 0)) as Hun.
    apply (f_equal length) in Hun. by rewrite !length_fmap in Hun.
  - intros r o Ho.
    destruct (prepared_frame objs memorySize rootAddr r) as [Hfr _].
    destruct (Hfr o Ho) as (o' & Ho' & ? & ? & ? & ? & _ & ?).
    exists o'. done.
  - unfold doPrepare. case_decide.
    + exists s. split; [done|]. split; [done|]. by left.
    + eexists. split; [done|]. split; [done|]. by right.
Qed.

(** ** Phase 3: [crunch] *)

(** The loop keeps the marked objects in order, each moved to the
    address the mapping holds for it. *)
Lemma crunchLoop_spec (m : gmap Z Z) (f : Obj.t → Z)
    (sorted kept : list Obj.t) :
  (∀ o, o ∈ sorted → Obj.isMarked o = true → m !! Obj.addr o = Some (f o)) →
  crunchLoop m sorted kept
  = Some (kept ++ ((λ o, Obj.moved (f o) o)
                     <$> filter (λ o, Obj.isMarked o = true) sorted)).
Proof.
  revert kept. induction sorted as [|o sorted IH]; intros kept Hm.
  - simpl. by rewrite app_nil_r.
  - simpl.
    assert (∀ o', o' ∈ sorted → Obj.isMarked o' = true →
                  m !! Obj.addr o' = Some (f o')) as Hm'.
    { intros o' Ho'. apply Hm. by apply list_elem_of_further. }
    destruct (Obj.isMarked o) eqn:Hmo.
    + assert (o ∈ o :: sorted) as Hhere by apply list_elem_of_here.
      rewrite (Hm o Hhere Hmo). simpl.
      rewrite (IH _ Hm'), filter_cons_True by done.
      by rewrite <- app_assoc.
    + rewrite filter_cons_False by (by rewrite Hmo). by apply IH.
Qed.

Lemma StronglySorted_filter_keep {A : Type} (R : relation A)
    (P : A → Prop) `{!∀ x, Decision (P x)} (l : list A) :
  StronglySorted R l → StronglySorted R (filter P l).
Proof.
  induction 1 as [|x l Hs IH Hx]; [constructor|].
  rewrite filter_cons. case_decide; [|done].
  constructor; [done|]. apply Forall_forall. intros y Hy.
  apply list_elem_of_filter in Hy as [_ Hy].
  rewrite Forall_forall in Hx. by apply Hx.
Qed.

Lemma StronglySorted_fmap_in {A B : Type} (f : A → B) (R1 : relation A)
    (R2 : relation B) (l : list A) :
  (∀ x y, x ∈ l → y ∈ l → R1 x y → R2 (f x) (f y)) →
  StronglySorted R1 l → StronglySorted R2 (f <$> l).
Proof.
  intros Hf Hs. induction Hs as [|x l Hs IH Hx]; [constructor|].
  rewrite fmap_cons. constructor.
  - apply IH. intros y z Hy Hz. apply Hf; by apply list_elem_of_further.
  - apply Forall_fmap, Forall_forall. intros y Hy. simpl.
    rewrite Forall_forall in Hx.
    apply Hf; [apply list_elem_of_here|by apply list_elem_of_further|].
    by apply Hx.
Qed.

(** A marked object pushes everything above it up by its size. *)
Lemma liveBelow_above (objs : list Obj.t) (o : Obj.t) (a : Z) :
  Forall (λ o, 0 ≤ Obj.size o) objs →
  o ∈ objs → Obj.isMarked o = true → Obj.addr o < a →
  liveBelow objs (Obj.addr o) + Obj.size o ≤ liveBelow objs a.
Proof.
  intros Hsz Ho Hm Ha. unfold liveBelow.
  induction Hsz as [|x objs Hx Hsz IH].
  - by apply elem_of_nil in Ho.
  - rewrite !fmap_cons. simpl.
    assert (0 ≤ liveSize x) as Hlx
      by (unfold liveSize; destruct (Obj.isMarked x); lia).
    assert (sumZ ((λ o0, if decide (Obj.addr o0 < Obj.addr o)
                         then liveSize o0 else 0) <$> objs)
            ≤ sumZ ((λ o0, if decide (Obj.addr o0 < a)
                           then liveSize o0 else 0) <$> objs)) as Hle.
    { clear -Hsz Ha. induction Hsz as [|y objs Hy Hsz IH]; [done|].
      rewrite !fmap_cons. simpl.
      assert (0 ≤ liveSize y)
        by (unfold liveSize; destruct (Obj.isMarked y); lia).
      repeat case_decide; lia. }
    apply elem_of_cons in Ho as [->|Ho].
    + rewrite decide_False by lia. rewrite decide_True by lia.
      assert (liveSize x = Obj.size x) as ->
        by (unfold liveSize; by rewrite Hm).
      lia.
    + specialize (IH Ho). repeat case_decide; lia.
Qed.

(** ** The handlers inside their phase *)

Lemma doMark_Idle (s : State) (objs : list Obj.t) :
  phase s = Idle → markReachable (objects s) (root s) = Some objs →
  doMark s = Normal (mkState (scenario s) objs (root s) Mark (mapping s)
                             (nextFree s) (pushHistory s)).
Proof.
  intros Hph Hm. unfold doMark, deepClone. rewrite Hm.
  case_decide; [congruence|done].
Qed.

Lemma doPrepare_Mark (s : State) :
  phase s = Mark →
  doPrepare s
  = let p := prepareCompaction (objects s)
               (Scenario.memorySize (scenario s)) (root s) in
    Normal (mkState (scenario s) (preparedObjects p) (newRoot p) Prepare
                    (oldToNew p) (preparedNextFree p) (pushHistory s)).
Proof. intros Hph. unfold doPrepare. case_decide; [congruence|done]. Qed.

Lemma doCrunch_Prepare (s : State) (objs : list Obj.t) :
  phase s = Prepare → crunch (objects s) (mapping s) = Some objs →
  doCrunch s = Normal (mkState (scenario s) objs (root s) Crunch (mapping s)
                               (nextFree s) (pushHistory s)).
Proof.
  intros Hph Hc. unfold doCrunch, deepClone. rewrite Hc.
  case_decide; [congruence|done].
Qed.

Section Prepared.
Variables (objs : list Obj.t) (memorySize : Z) (rootAddr : option Z).
Hypothesis distinct : NoDup (Obj.addr <$> objs).

Let p := prepareCompaction objs memorySize rootAddr.

(** Every object of the prepared heap, traced back to the input. *)
Lemma prepared_object (o1 : Obj.t) :
  o1 ∈ preparedObjects p →
  ∃ o, o ∈ objs
       ∧ Obj.addr o1 = Obj.addr o ∧ Obj.size o1 = Obj.size o
       ∧ Obj.isMarked o1 = Obj.isMarked o
       ∧ (Obj.isMarked o = true →
          Obj.newAddr o1 = Some (Some (liveBelow objs (Obj.addr o)))
          ∧ oldToNew p !! Obj.addr o = Some (liveBelow objs (Obj.addr o))).
Proof.
  intros [r Hr]%list_elem_of_lookup.
  destruct (prepared_frame objs memorySize rootAddr r) as [Hfr Hback].
  destruct (Hback o1 Hr) as [o Ho].
  destruct (Hfr o Ho) as (o' & Ho' & _ & Ha & Hs & _ & Hm & _).
  assert (o' = o1) as -> by (unfold p in Hr; congruence).
  exists o. split; [by eapply list_elem_of_lookup_2|].
  split; [done|]. split; [done|]. split; [done|]. intros Hmo.
  destruct (planned_sorted objs distinct) as (_ & Hmarked & _).
  destruct (Hmarked r o Ho Hmo) as [Hh Hmap]. split; [|done].
  unfold p in Hr. rewrite prepared_lookup, Hh in Hr. simpl in Hr.
  by injection Hr as <-.
Qed.

Lemma prepared_addrs :
  Obj.addr <$> preparedObjects p = Obj.addr <$> objs.
Proof.
  apply list_eq. intros r. rewrite !list_lookup_fmap.
  destruct (prepared_frame objs memorySize rootAddr r) as [Hfr Hback].
  destruct (objs !! r) as [o|] eqn:Ho.
  - destruct (Hfr o eq_refl) as (o' & Ho' & _ & Ha & _).
    unfold p. rewrite Ho'. simpl. by rewrite Ha.
  - destruct (preparedObjects p !! r) as [o'|] eqn:Ho'; [|done].
    by destruct (Hback o' Ho').
Qed.

(** [crunch] on the prepared heap finds every address it asks for. *)
Lemma crunch_prepared :
  crunch (preparedObjects p) (oldToNew p)
  = Some ((λ o, Obj.moved (liveBelow objs (Obj.addr o)) o)
            <$> filter (λ o, Obj.isMarked o = true)
                  (sortByAddr Obj.addr (preparedObjects p))).
Proof.
  unfold crunch.
  rewrite (crunchLoop_spec _ (λ o, liveBelow objs (Obj.addr o))); [done|].
  intros o1 Ho1 Hm1. rewrite sortByAddr_perm in Ho1.
  destruct (prepared_object o1 Ho1) as (o & _ & Ha & _ & Hm & Hplan).
  rewrite Hm1 in Hm. destruct (Hplan (eq_sym Hm)) as [_ Hmap].
  by rewrite Ha.
Qed.

Lemma prepared_sizes :
  Obj.size <$> preparedObjects p = Obj.size <$> objs.
Proof.
  apply list_eq. intros r. rewrite !list_lookup_fmap.
  destruct (prepared_frame objs memorySize rootAddr r) as [Hfr Hback].
  destruct (objs !! r) as [o|] eqn:Ho.
  - destruct (Hfr o eq_refl) as (o' & Ho' & _ & _ & Hs & _).
    unfold p. rewrite Ho'. simpl. by rewrite Hs.
  - destruct (preparedObjects p !! r) as [o'|] eqn:Ho'; [|done].
    by destruct (Hback o' Ho').
Qed.

(** With positive sizes the new addresses ascend with the old ones. *)
Lemma crunched_sorted :
  Forall (λ o, 0 < Obj.size o) objs →
  StronglySorted Z.lt
    (Obj.addr <$> ((λ o, Obj.moved (liveBelow objs (Obj.addr o)) o)
                     <$> filter (λ o, Obj.isMarked o = true)
                           (sortByAddr Obj.addr (preparedObjects p)))).
Proof.
  intros Hsz. rewrite <- list_fmap_compose.
  apply (StronglySorted_fmap_in _ (λ x y, Obj.addr x < Obj.addr y)).
  - intros x y Hx Hy Hxy. simpl.
    apply list_elem_of_filter in Hx as [Hmx Hx].
    rewrite sortByAddr_perm in Hx.
    destruct (prepared_object x Hx) as (o & Ho & Ha & _ & Hm & _).
    rewrite Hmx in Hm. rewrite Ha in Hxy |- *.
    pose proof (liveBelow_above objs o (Obj.addr y)) as Hab.
    rewrite Forall_forall in Hsz. pose proof (Hsz o Ho).
    assert (liveBelow objs (Obj.addr o) + Obj.size o
            ≤ liveBelow objs (Obj.addr y)); [|lia].
    apply Hab; [|done|done|done].
    apply Forall_forall. intros z Hz. specialize (Hsz z Hz). simpl in Hsz.
    lia.
  - apply StronglySorted_filter_keep. apply sortByAddr_strict.
    by rewrite prepared_addrs.
Qed.
End Prepared.

(** C2.  From a state in phase Mark whose objects have pairwise distinct
    addresses and positive sizes, [doPrepare] followed by [doCrunch]
    leaves exactly the objects that were marked in the prepared heap,
    each with [addr] equal to its planned address, [marked] false and
    [newAddr] null, and with the id, size and fields it had; no unmarked
    object is left and the count is
    that of the marked objects; the addresses of the result ascend; root,
    mapping and nextFree are those computed by [doPrepare]. *)
Theorem crunch_keeps_marked (s : State) :
  phase s = Mark →
  NoDup (Obj.addr <$> objects s) →
  Forall (λ o, 0 < Obj.size o) (objects s) →
  ∃ s1 s2,
    doPrepare s = Normal s1 ∧ doCrunch s1 = Normal s2
    ∧ phase s1 = Prepare ∧ phase s2 = Crunch
    ∧ (∀ o2, o2 ∈ objects s2 ↔
         ∃ o1 n, o1 ∈ objects s1 ∧ Obj.isMarked o1 = true
                 ∧ Obj.newAddr o1 = Some (Some n)
                 ∧ Obj.addr o2 = n ∧ Obj.marked o2 = Some false
                 ∧ Obj.newAddr o2 = Some None
                 ∧ Obj.id o2 = Obj.id o1 ∧ Obj.size o2 = Obj.size o1
                 ∧ Obj.fields o2 = Obj.fields o1)
    ∧ length (objects s2)
      = length (filter (λ o, Obj.isMarked o = true) (objects s1))
    ∧ StronglySorted Z.lt (Obj.addr <$> objects s2)
    ∧ root s2 = root s1 ∧ nextFree s2 = nextFree s1
    ∧ mapping s2 = mapping s1.
Proof.
  intros Hph Hnd Hsz.
  set (objs := objects s) in *.
  set (p := prepareCompaction objs (Scenario.memorySize (scenario s)) (root s)).
  pose proof (crunch_prepared objs (Scenario.memorySize (scenario s))
                (root s) Hnd) as Hcr.
  pose proof (prepared_object objs (Scenario.memorySize (scenario s))
                (root s) Hnd) as Hobj.
  pose proof (crunched_sorted objs (Scenario.memorySize (scenario s))
                (root s) Hnd Hsz) as Hsorted.
  fold p in Hcr, Hobj, Hsorted.
  eexists _, _. split; [by apply doPrepare_Mark|].
  split; [by apply doCrunch_Prepare|].
  fold objs p. clearbody p. simpl.
  set (S := sortByAddr Obj.addr (preparedObjects p)).
  set (F := filter (λ o, Obj.isMarked o = true) S).
  split; [done|]. split; [done|]. split; [|split; [|split]].
  - intros o2. rewrite list_elem_of_fmap. split.
    + intros (o1 & -> & Ho1). apply list_elem_of_filter in Ho1 as [Hm1 Ho1].
      unfold S in Ho1. rewrite sortByAddr_perm in Ho1.
      destruct (Hobj o1 Ho1) as (o & _ & Ha & _ & Hm & Hplan).
      rewrite Hm1 in Hm. destruct (Hplan (eq_sym Hm)) as [Hn _].
      exists o1, (liveBelow objs (Obj.addr o1)). rewrite Ha. done.
    + intros (o1 & n & Ho1 & Hm1 & Hn & Ha2 & Hm2 & Hn2 & Hi2 & Hs2 & Hf2).
      destruct (Hobj o1 Ho1) as (o & _ & Ha & _ & Hm & Hplan).
      rewrite Hm1 in Hm. destruct (Hplan (eq_sym Hm)) as [Hn' _].
      exists o1. split.
      * rewrite Ha. destruct o2. simpl in *. unfold Obj.moved.
        f_equal; congruence.
      * apply list_elem_of_filter. split; [done|].
        unfold S. by rewrite sortByAddr_perm.
  - rewrite length_fmap. apply Permutation_length.
    unfold F, S. by rewrite sortByAddr_perm.
  - exact Hsorted.
  - done.
Qed.

Lemma crunch_keeps_marked_witness :
  let s :=
    mkState makeDefaultScenario
      [ Obj.mk "A" 2 4 [Some 8; Some 14; None] (Some true) None;
        Obj.mk "B" 8 3 [Some 14; None] (Some true) None;
        Obj.mk "C" 14 3 [None; None] (Some true) None;
        Obj.mk "D" 22 5 [None; None; None; None] None None ]
      (Some 2) Mark ∅ 27 [] in
  ∃ s1 s2,
    doPrepare s = Normal s1 ∧ doCrunch s1 = Normal s2
    ∧ phase s1 = Prepare ∧ phase s2 = Crunch
    ∧ (∀ o2, o2 ∈ objects s2 ↔
         ∃ o1 n, o1 ∈ objects s1 ∧ Obj.isMarked o1 = true
                 ∧ Obj.newAddr o1 = Some (Some n)
                 ∧ Obj.addr o2 = n ∧ Obj.marked o2 = Some false
                 ∧ Obj.newAddr o2 = Some None
                 ∧ Obj.id o2 = Obj.id o1 ∧ Obj.size o2 = Obj.size o1
                 ∧ Obj.fields o2 = Obj.fields o1)
    ∧ length (objects s2)
      = length (filter (λ o, Obj.isMarked o = true) (objects s1))
    ∧ StronglySorted Z.lt (Obj.addr <$> objects s2)
    ∧ root s2 = root s1 ∧ nextFree s2 = nextFree s1
    ∧ mapping s2 = mapping s1.
Proof.
  intros s. apply (crunch_keeps_marked s).
  - reflexivity.
  - apply (bool_decide_unpack _). vm_compute. exact I.
  - apply (bool_decide_unpack _). vm_compute. exact I.
Defined.

(** ** The history *)

(** On any heap [crunch] finds the addresses it asks the mapping of
    [prepareCompaction] for. *)
Lemma crunch_after_prepare (objs : list Obj.t) (memorySize : Z)
    (rootAddr : option Z) :
  let p := prepareCompaction objs memorySize rootAddr in
  is_Some (crunch (preparedObjects p) (oldToNew p)).
Proof.
  intros p. unfold crunch.
  rewrite (crunchLoop_spec _ (λ o, default 0 (oldToNew p !! Obj.addr o)));
    [by eauto|].
  intros o1 Ho1 Hm1. rewrite sortByAddr_perm in Ho1.
  apply list_elem_of_lookup in Ho1 as [r Hr].
  destruct (prepared_frame objs memorySize rootAddr r) as [Hfr Hback].
  destruct (Hback o1 Hr) as [o Ho].
  destruct (Hfr o Ho) as (o' & Ho' & _ & Ha & _ & _ & Hm & _).
  assert (o' = o1) as -> by (unfold p in Hr; congruence).
  assert (is_Some (oldToNew p !! Obj.addr o1)) as [n Hn]; [|by rewrite Hn].
  unfold p, prepareCompaction. simpl. apply plan_keys. right.
  exists r, o. split; [|split; [done|split; congruence]].
  rewrite sortByAddr_perm. apply elem_of_seq.
  apply lookup_lt_Some in Ho. lia.
Qed.

(** Undoing right after a transition gives back the state before it. *)
Lemma goPrev_pushHistory (s s' : State) :
  scenario s' = scenario s → history s' = pushHistory s →
  goPrev s' = Normal s.
Proof.
  intros Hsc Hh. unfold goPrev, pushHistory in *.
  rewrite Hh, last_snoc, removelast_last, Hsc. unfold takeSnap, deepClone.
  simpl. rewrite newMap_entries. by destruct s.
Qed.

(** C5.  From every state in phase Idle, mark, prepare and crunch
    followed by three undos all complete normally and end in the state
    the sequence started from: the same objects with all their
    attributes, root, phase, mapping, nextFree, and the same history. *)
Theorem undo_round_trip (s : State) :
  phase s = Idle →
  Normal s >>> doMark >>> doPrepare >>> doCrunch
           >>> goPrev >>> goPrev >>> goPrev
  = Normal s.
Proof.
  intros Hph.
  destruct (markReachable_visited (objects s) (root s)) as (V & Hmark & _).
  cbn [andThen]. rewrite (doMark_Idle s _ Hph Hmark). cbn [andThen].
  set (s1 := mkState _ _ _ Mark _ _ _).
  rewrite (doPrepare_Mark s1 eq_refl). cbn [andThen].
  set (s2 := mkState _ _ _ Prepare _ _ _).
  destruct (crunch_after_prepare (objects s1)
              (Scenario.memorySize (scenario s1)) (root s1)) as [kept Hkept].
  rewrite (doCrunch_Prepare s2 kept eq_refl Hkept). cbn [andThen].
  set (s3 := mkState _ _ _ Crunch _ _ _).
  rewrite (goPrev_pushHistory s2 s3 eq_refl eq_refl). cbn [andThen].
  rewrite (goPrev_pushHistory s1 s2 eq_refl eq_refl). cbn [andThen].
  by rewrite (goPrev_pushHistory s s1 eq_refl eq_refl).
Qed.

Lemma undo_round_trip_witness :
  Normal initialState >>> doMark >>> doPrepare >>> doCrunch
                      >>> goPrev >>> goPrev >>> goPrev
  = Normal initialState.
Proof. apply (undo_round_trip initialState). reflexivity. Defined.

(** ** The default scenario *)

(** C6.  The default scenario has memory size 36, objects A@2 (size 4,
    fields 8, 14, null), B@8 (size 3, fields 14, null), C@14 (size 3,
    two null fields), D@22 (size 5, four null fields) and root 2.  Mark
    marks A, B and C and not D.  Prepare gives the mapping 2→0, 8→4,
    14→7, the fields 4, 7, null to A, root 0 and nextFree 10.  Crunch
    leaves exactly A, B and C, at the addresses 0, 4 and 7. *)
Theorem default_scenario_cycle :
  Scenario.memorySize (scenario initialState) = 36
  ∧ root initialState = Some 2
  ∧ (λ o, (Obj.id o, Obj.addr o, Obj.size o, Obj.fields o))
      <$> objects initialState
    = [ ("A", 2, 4, [Some 8; Some 14; None]);
        ("B", 8, 3, [Some 14; None]);
        ("C", 14, 3, [None; None]);
        ("D", 22, 5, [None; None; None; None]) ]
  ∧ ∃ s1 s2 s3,
      doMark initialState = Normal s1
      ∧ doPrepare s1 = Normal s2
      ∧ doCrunch s2 = Normal s3
      ∧ (λ o, (Obj.id o, Obj.isMarked o)) <$> objects s1
        = [("A", true); ("B", true); ("C", true); ("D", false)]
      ∧ mapping s2 = {[ 2 := 0; 8 := 4; 14 := 7 ]}
      ∧ (λ o, (Obj.id o, Obj.fields o)) <$> objects s2
        = [ ("A", [Some 4; Some 7; None]); ("B", [Some 7; None]);
            ("C", [None; None]); ("D", [None; None; None; None]) ]
      ∧ root s2 = Some 0
      ∧ nextFree s2 = 10
      ∧ (λ o, (Obj.id o, Obj.addr o)) <$> objects s3
        = [("A", 0); ("B", 4); ("C", 7)]
      ∧ root s3 = Some 0
      ∧ nextFree s3 = 10.
Proof.
  split; [reflexivity|]. split; [reflexivity|]. split; [reflexivity|].
  eexists _, _, _.
  split; [vm_compute; reflexivity|].
  split; [vm_compute; reflexivity|].
  split; [vm_compute; reflexivity|].
  repeat split; vm_compute; reflexivity.
Qed.

(** ** Handlers outside their phase, and the empty history *)

(** No handler throws: each completes normally or, as far as the
    embedding can tell before the totality of its callee is known, is
    stuck. *)
Lemma handlers_never_throw (s : State) (e : Error) (s' : State) :
  doMark s ≠ Throw e s' ∧ doPrepare s ≠ Throw e s' ∧ doCrunch s ≠ Throw e s'
  ∧ goPrev s ≠ Throw e s' ∧ reset s ≠ Throw e s' ∧ autoRun s ≠ Throw e s'
  ∧ (∀ a, changeRoot a s ≠ Throw e s')
  ∧ (∀ rnd, addGarbage rnd s ≠ Throw e s').
Proof.
  assert (doMark s ≠ Throw e s') as HM.
  { unfold doMark. case_decide; [done|]. by destruct (markReachable _ _). }
  assert (doPrepare s ≠ Throw e s') as HP.
  { unfold doPrepare. by case_decide. }
  assert (doCrunch s ≠ Throw e s') as HC.
  { unfold doCrunch. case_decide; [done|]. by destruct (crunch _ _). }
  split; [done|]. split; [done|]. split; [done|]. split; [|split; [|split; [|split]]].
  - unfold goPrev. by destruct (last _).
  - done.
  - unfold autoRun. by destruct (phase s).
  - intros a. unfold changeRoot. by case_decide.
  - intros rnd. unfold addGarbage. by repeat case_decide.
Qed.

(** C8 as stated fails: [doPrepare] and [doCrunch] run in phase Idle, and
    [changeRoot] run in phase Mark, return normally instead of
    signalling [InvalidPhaseError]. *)
Lemma wrong_phase_signals_nothing :
  let marked := mkState makeDefaultScenario
                  (Scenario.objects makeDefaultScenario) (Some 2) Mark ∅ 27 [] in
  phase initialState ≠ Mark
  ∧ doPrepare initialState ≠ Throw InvalidPhaseError initialState
  ∧ phase initialState ≠ Prepare
  ∧ doCrunch initialState ≠ Throw InvalidPhaseError initialState
  ∧ phase marked ≠ Idle
  ∧ changeRoot 8 marked ≠ Throw InvalidPhaseError marked.
Proof. repeat split; done. Qed.

(** C8, amended.  A handler invoked outside its phase returns normally,
    signalling nothing, with the whole state (history included) as it
    was: [doPrepare] when the phase is not Mark, [doCrunch] when it is
    not Prepare, [changeRoot] and [doMark] when it is not Idle. *)
Theorem wrong_phase_is_ignored (s : State) :
  (phase s ≠ Mark → doPrepare s = Normal s)
  ∧ (phase s ≠ Prepare → doCrunch s = Normal s)
  ∧ (phase s ≠ Idle → ∀ a, changeRoot a s = Normal s)
  ∧ (phase s ≠ Idle → doMark s = Normal s).
Proof.
  split; [|split; [|split]].
  - intros Hph. unfold doPrepare. by case_decide.
  - intros Hph. unfold doCrunch. by case_decide.
  - intros Hph a. unfold changeRoot. by case_decide.
  - intros Hph. unfold doMark. by case_decide.
Qed.

Lemma wrong_phase_is_ignored_witness :
  let s := mkState makeDefaultScenario [] None Crunch ∅ 10 [] in
  doPrepare s = Normal s ∧ doCrunch s = Normal s
  ∧ (∀ a, changeRoot a s = Normal s) ∧ doMark s = Normal s.
Proof.
  intros s. destruct (wrong_phase_is_ignored s) as (HP & HC & HR & HM).
  split; [by apply HP|]. split; [by apply HC|].
  split; [by apply HR|by apply HM].
Defined.

(** C9 as stated fails: with an empty history [goPrev] returns normally
    instead of signalling [NoHistoryError]. *)
Lemma empty_history_signals_nothing :
  history initialState = []
  ∧ goPrev initialState = Normal initialState
  ∧ goPrev initialState ≠ Throw NoHistoryError initialState.
Proof. repeat split; done. Qed.

(** C9, amended.  [goPrev] removes the most recent snapshot from the
    history and restores objects, root, phase, mapping and nextFree from
    it, so that a snapshot taken of a state gives back that state's;
    with an empty history it returns normally, signalling nothing, and
    changes no state. *)
Theorem goPrev_restores (s : State) :
  (∀ h snap, history s = h ++ [snap] →
     goPrev s = Normal (mkState (scenario s) (Snap.objects snap)
                          (Snap.root snap) (Snap.phase snap)
                          (newMap (Snap.mapping snap))
                          (Snap.nextFree snap) h))
  ∧ (∀ h s0, history s = h ++ [takeSnap s0] →
     goPrev s = Normal (mkState (scenario s) (objects s0) (root s0)
                          (phase s0) (mapping s0) (nextFree s0) h))
  ∧ (history s = [] → goPrev s = Normal s).
Proof.
  assert (∀ h snap, history s = h ++ [snap] →
     goPrev s = Normal (mkState (scenario s) (Snap.objects snap)
                          (Snap.root snap) (Snap.phase snap)
                          (newMap (Snap.mapping snap))
                          (Snap.nextFree snap) h)) as Hpop.
  { intros h snap Hh. unfold goPrev.
    by rewrite Hh, last_snoc, removelast_last. }
  split; [done|]. split.
  - intros h s0 Hh. rewrite (Hpop h _ Hh). unfold takeSnap, deepClone. simpl.
    by rewrite newMap_entries.
  - intros Hh. unfold goPrev. by rewrite Hh.
Qed.

Lemma goPrev_restores_witness :
  let s0 := initialState in
  let s := mkState makeDefaultScenario [] None Mark ∅ 0 [takeSnap s0] in
  goPrev s = Normal (mkState (scenario s) (objects s0) (root s0)
                       (phase s0) (mapping s0) (nextFree s0) [])
  ∧ goPrev initialState = Normal initialState.
Proof.
  intros s0 s. split.
  - destruct (goPrev_restores s) as (_ & Hsnap & _).
    apply (Hsnap [] s0). reflexivity.
  - destruct (goPrev_restores initialState) as (_ & _ & Hempty).
    apply Hempty. reflexivity.
Defined.

(** ** Inserting garbage *)

Lemma lastEnd_fold (objs : list Obj.t) (m0 : Z) :
  m0 ≤ foldl (λ m o, Z.max m (Obj.addr o + Obj.size o)) m0 objs
  ∧ ∀ o, o ∈ objs →
      Obj.addr o + Obj.size o
      ≤ foldl (λ m o, Z.max m (Obj.addr o + Obj.size o)) m0 objs.
Proof.
  revert m0. induction objs as [|x objs IH]; intros m0.
  - split; [done|]. intros o Ho. by apply elem_of_nil in Ho.
  - simpl. destruct (IH (Z.max m0 (Obj.addr x + Obj.size x))) as [Hge Hin].
    split; [lia|]. intros o [->|Ho]%elem_of_cons; [lia|]. by apply Hin.
Qed.

(** No object ends past [lastEnd], which is never negative. *)
Lemma lastEnd_bound (objs : list Obj.t) :
  0 ≤ lastEnd objs
  ∧ ∀ o, o ∈ objs → Obj.addr o + Obj.size o ≤ lastEnd objs.
Proof. apply lastEnd_fold. Qed.

(** C7 as stated fails: with the default scenario filled up by two
    insertions, a third object would end at 39, past the memory size 36;
    [addGarbage] leaves the state as it is but returns normally instead
    of signalling [InsufficientSpaceError]. *)
Lemma full_heap_signals_nothing :
  ∃ s,
    Normal initialState >>> addGarbage 10 >>> addGarbage 11 = Normal s
    ∧ phase s = Idle
    ∧ (lastEnd (objects s) + 1) + 3 > Scenario.memorySize (scenario s)
    ∧ addGarbage 12 s = Normal s
    ∧ addGarbage 12 s ≠ Throw InsufficientSpaceError s.
Proof.
  eexists. split; [vm_compute; reflexivity|].
  split; [reflexivity|]. split; [vm_compute; reflexivity|].
  split; [vm_compute; reflexivity|]. vm_compute. discriminate.
Qed.

(** C7, amended.  [addGarbage] changes something only in phase Idle.
    Outside it, and when fewer than 3 cells lie between the end of the
    last object and the memory size, it returns normally, signalling
    nothing, with the state as it was.  In phase Idle with at least 4
    such cells it adds one object of size 3 with two empty fields, one
    cell past the end of the last object: the object lies inside the
    memory and behind every existing object, and nothing else of the
    state changes. *)
Theorem addGarbage_inserts (rnd : Z) (s : State) :
  let free := Scenario.memorySize (scenario s) - lastEnd (objects s) in
  let g := Obj.mk ("G" +:+ pretty rnd) (lastEnd (objects s) + 1) 3
                  [None; None] None None in
  (phase s ≠ Idle → addGarbage rnd s = Normal s)
  ∧ (free < 3 → addGarbage rnd s = Normal s)
  ∧ (phase s = Idle → 4 ≤ free →
     ∃ objs', addGarbage rnd s
              = Normal (mkState (scenario s) objs' (root s) (phase s)
                          (mapping s) (nextFree s) (history s))
              ∧ objs' ≡ₚ g :: objects s
              ∧ insideMemory (Scenario.memorySize (scenario s)) g
              ∧ ∀ o, o ∈ objects s →
                  Obj.addr o + Obj.size o ≤ Obj.addr g).
Proof.
  intros free g. split; [|split].
  - intros Hph. unfold addGarbage. by case_decide.
  - intros Hfree. unfold addGarbage. case_decide; [done|].
    fold free. by case_decide.
  - intros Hph Hfree. eexists. split; [|split; [|split]].
    + unfold addGarbage. case_decide; [done|]. fold free.
      case_decide; [lia|]. reflexivity.
    + rewrite sortByAddr_perm. by rewrite Permutation_app_comm.
    + destruct (lastEnd_bound (objects s)) as [Hpos _].
      unfold insideMemory, g, free in *. simpl. lia.
    + intros o Ho. destruct (lastEnd_bound (objects s)) as [_ Hend].
      specialize (Hend o Ho). unfold g. simpl. lia.
Qed.

Lemma addGarbage_inserts_witness :
  let crunched := mkState makeDefaultScenario [] None Crunch ∅ 10 [] in
  let full :=
    mkState makeDefaultScenario
      [Obj.mk "A" 2 33 [] None None] (Some 2) Idle ∅ 35 [] in
  let g := Obj.mk "G42" 28 3 [None; None] None None in
  addGarbage 42 crunched = Normal crunched
  ∧ addGarbage 42 full = Normal full
  ∧ ∃ objs', addGarbage 42 initialState
             = Normal (mkState makeDefaultScenario objs' (Some 2) Idle
                         ∅ 27 [])
             ∧ objs' ≡ₚ g :: objects initialState
             ∧ insideMemory 36 g
             ∧ ∀ o, o ∈ objects initialState →
                 Obj.addr o + Obj.size o ≤ Obj.addr g.
Proof.
  intros crunched full g. split; [|split].
  - destruct (addGarbage_inserts 42 crunched) as (Hphase & _ & _).
    apply Hphase. discriminate.
  - destruct (addGarbage_inserts 42 full) as (_ & Hfull & _).
    apply Hfull. reflexivity.
  - destruct (addGarbage_inserts 42 initialState) as (_ & _ & Hfits).
    apply Hfits; [reflexivity|]. vm_compute. discriminate.
Defined.

(** The guard compares the free cells with the object's size although
    the object is placed one cell further: with exactly 3 free cells the
    object is inserted and ends one cell past the memory, where
    [buildMemory] skips it as invalid. *)
Example addGarbage_three_free :
  let s := mkState (Scenario.mk "tight" 30 (Some 2) [])
             [Obj.mk "A" 2 25 [] None None] (Some 2) Idle ∅ 27 [] in
  let g := Obj.mk "G42" 28 3 [None; None] None None in
  Scenario.memorySize (scenario s) - lastEnd (objects s) = 3
  ∧ addGarbage 42 s
    = Normal (mkState (scenario s) [Obj.mk "A" 2 25 [] None None; g]
                (Some 2) Idle ∅ 27 [])
  ∧ ¬ insideMemory (Scenario.memorySize (scenario s)) g.
Proof.
  split; [reflexivity|]. split; [vm_compute; reflexivity|].
  unfold insideMemory. simpl. intros Hin. apply Hin. right. lia.
Qed.

(** ** Every state the component reaches *)

Lemma wellFormed_same (objs objs' : list Obj.t) :
  Obj.addr <$> objs' = Obj.addr <$> objs →
  Obj.size <$> objs' = Obj.size <$> objs →
  wellFormed objs → wellFormed objs'.
Proof.
  intros Ha Hs [Hnd Hsz]. split; [by rewrite Ha|].
  apply (Forall_fmap Obj.size (λ z, 0 < z)). rewrite Hs.
  by apply Forall_fmap.
Qed.

Lemma wellFormed_perm (objs objs' : list Obj.t) :
  objs' ≡ₚ objs → wellFormed objs → wellFormed objs'.
Proof. intros Hp [Hnd Hsz]. split; by rewrite Hp. Qed.

Lemma markedHeap_wellFormed (objs : list Obj.t) (V : gset Z) :
  wellFormed objs → wellFormed (markedHeap objs V).
Proof.
  apply wellFormed_same; apply list_eq; intros r; unfold markedHeap;
    rewrite !list_lookup_fmap, list_lookup_imap;
    (destruct (objs !! r) as [o|]; [simpl|done]); by case_decide.
Qed.

Lemma StronglySorted_lt_NoDup (l : list Z) : StronglySorted Z.lt l → NoDup l.
Proof.
  induction 1 as [|x l Hs IH Hx]; constructor; [|done].
  intros Hin. rewrite Forall_forall in Hx. specialize (Hx x Hin). lia.
Qed.

Lemma crunched_wellFormed (objs : list Obj.t) (memorySize : Z)
    (rootAddr : option Z) (kept : list Obj.t) :
  let p := prepareCompaction objs memorySize rootAddr in
  wellFormed objs →
  crunch (preparedObjects p) (oldToNew p) = Some kept → wellFormed kept.
Proof.
  intros p [Hnd Hsz] Hkept. unfold p in Hkept.
  rewrite (crunch_prepared objs memorySize rootAddr Hnd) in Hkept.
  injection Hkept as <-. split.
  - apply StronglySorted_lt_NoDup.
    by apply (crunched_sorted objs memorySize rootAddr).
  - apply Forall_fmap, Forall_forall. intros o1 Ho1. simpl.
    apply list_elem_of_filter in Ho1 as [_ Ho1].
    rewrite sortByAddr_perm in Ho1.
    destruct (prepared_object objs memorySize rootAddr Hnd o1 Ho1)
      as (o & Ho & _ & -> & _).
    rewrite Forall_forall in Hsz. by apply Hsz.
Qed.

Lemma initialState_invariant : invariant initialState.
Proof.
  split; [|by constructor]. split; [split|];
    apply (bool_decide_unpack _); vm_compute; exact I.
Qed.

Lemma addGarbage_invariant (rnd : Z) (s s' : State) :
  invariant s → addGarbage rnd s = Normal s' → invariant s'.
Proof.
  intros [Hok Hhist]. unfold addGarbage.
  case_decide as Hph; [by intros [= <-]|].
  case_decide as Hfree; [by intros [= <-]|]. intros [= <-].
  assert (phase s = Idle) as Hidle by (by destruct (phase s)).
  split; [|done]. simpl. rewrite Hidle in Hok |- *.
  destruct Hok as [[Hnd Hsz] Hun].
  set (g := Obj.mk _ _ 3 _ _ _).
  assert (sortByAddr Obj.addr (objects s ++ [g]) ≡ₚ g :: objects s) as Hp.
  { rewrite sortByAddr_perm. by rewrite Permutation_app_comm. }
  split; [split|].
  - rewrite Hp, fmap_cons. apply NoDup_cons. split; [|done].
    intros [o [Ha Ho]]%list_elem_of_fmap.
    destruct (lastEnd_bound (objects s)) as [_ Hend].
    specialize (Hend o Ho). rewrite Forall_forall in Hsz.
    specialize (Hsz o Ho). simpl in Ha, Hsz. lia.
  - rewrite Hp. constructor; [done|done].
  - rewrite Hp. constructor; [done|done].
Qed.

Lemma goPrev_invariant (s s' : State) :
  invariant s → goPrev s = Normal s' → invariant s'.
Proof.
  intros [Hok Hhist]. unfold goPrev.
  destruct (last (history s)) as [snap|] eqn:Hlast; [|by intros [= <-]].
  apply last_Some in Hlast as [h Hh]. rewrite Hh in Hhist |- *.
  apply Forall_app in Hhist as [Hh' Hsnap].
  rewrite Forall_singleton in Hsnap.
  intros [= <-]. unfold deepClone. split; simpl; [done|].
  by rewrite removelast_last.
Qed.

Lemma pushHistory_invariant (s : State) :
  invariant s →
  Forall (λ snap, phaseOK (Snap.phase snap) (Snap.objects snap)
                    (newMap (Snap.mapping snap)))
         (pushHistory s).
Proof.
  intros [Hok Hhist]. unfold pushHistory. apply Forall_app. split; [done|].
  apply Forall_singleton. unfold takeSnap, deepClone. simpl.
  by rewrite newMap_entries.
Qed.

Lemma autoRun_invariant (s s' : State) :
  invariant s → autoRun s = Normal s' → invariant s'.
Proof.
  intros Hinv. pose proof (pushHistory_invariant s Hinv) as Hpush.
  destruct Hinv as [Hok Hhist]. unfold autoRun.
  destruct (phase s) eqn:Hph.
  - destruct (markReachable_visited (objects s) (root s)) as (V & HV & _).
    rewrite (doMark_Idle s _ Hph HV). intros [= <-].
    split; [|done]. simpl. split; [|done].
    apply markedHeap_wellFormed. by destruct Hok.
  - rewrite (doPrepare_Mark s Hph). intros [= <-].
    split; [|done]. simpl. destruct Hok as [Hwf _]. split.
    + eapply wellFormed_same; [| |exact Hwf].
      * exact (prepared_addrs (objects s)
                 (Scenario.memorySize (scenario s)) (root s)).
      * exact (prepared_sizes (objects s)
                 (Scenario.memorySize (scenario s)) (root s)).
    + by exists (objects s), (Scenario.memorySize (scenario s)), (root s).
  - unfold doCrunch. case_decide; [congruence|]. unfold deepClone.
    destruct (crunch (objects s) (mapping s)) as [kept|] eqn:Hkept; [|done].
    intros [= <-]. split; [|done]. simpl. split; [|done].
    destruct Hok as [_ (objs0 & ms & r & Hwf0 & Hobjs & Hmap)].
    rewrite Hobjs, Hmap in Hkept. by eapply crunched_wellFormed.
  - intros [= <-]. split; [by rewrite Hph|done].
Qed.

(** The heap of every state reached from the first render by the
    buttons has distinct addresses and positive sizes, is unmarked in
    phase Idle, and in phase Prepare is the result of
    [prepareCompaction] on such a heap; so is every snapshot. *)
Theorem reachable_invariant (s : State) : reachableState s → invariant s.
Proof.
  induction 1 as [|e s s' Hs IH Hstep]; [apply initialState_invariant|].
  destruct e; simpl in Hstep.
  - injection Hstep as <-. apply initialState_invariant.
  - by eapply addGarbage_invariant.
  - by eapply goPrev_invariant.
  - by eapply autoRun_invariant.
  - unfold changeRoot in Hstep. case_decide; injection Hstep as <-; [|done].
    destruct IH as [Hok Hhist]. by split.
Qed.

(** X14.  In every state the component reaches the objects have
    pairwise distinct addresses and positive sizes, and in phase Idle
    none of them is marked: the assumptions made of the heap above hold
    whenever the component marks, prepares or crunches. *)
Corollary reachable_heap (s : State) :
  reachableState s →
  NoDup (Obj.addr <$> objects s)
  ∧ Forall (λ o, 0 < Obj.size o) (objects s)
  ∧ (phase s = Idle → Forall (λ o, Obj.isMarked o = false) (objects s)).
Proof.
  intros [[[Hnd Hsz] Hph] _]%reachable_invariant.
  split; [done|]. split; [done|]. intros Hidle. by rewrite Hidle in Hph.
Qed.

(** X15.  No button ever leaves the component stuck or makes a handler
    throw: on a reachable state every handler returns with the next
    state.  In particular the traversal of [markReachable] ends within
    its depth bound and [crunch] finds every address it asserts to be in
    the mapping. *)
Theorem handlers_complete (e : Event) (s : State) :
  reachableState s → ∃ s', handle e s = Normal s'.
Proof.
  intros [Hok _]%reachable_invariant. destruct e; simpl.
  - unfold reset. eauto.
  - unfold addGarbage. repeat case_decide; eauto.
  - unfold goPrev. destruct (last (history s)); eauto.
  - unfold autoRun. destruct (phase s) eqn:Hph.
    + destruct (markReachable_visited (objects s) (root s)) as (V & HV & _).
      rewrite (doMark_Idle s _ Hph HV). eauto.
    + rewrite (doPrepare_Mark s Hph). eauto.
    + destruct Hok as [_ (objs0 & ms & r & _ & Hobjs & Hmap)].
      destruct (crunch_after_prepare objs0 ms r) as [kept Hkept].
      rewrite <- Hobjs, <- Hmap in Hkept.
      rewrite (doCrunch_Prepare s kept Hph Hkept). eauto.
    + eauto.
  - unfold changeRoot. case_decide; eauto.
Qed.

(* ------------------------------------------------------------------ *)
(** * Further properties *)

(** ** [sortByAddr] *)

Section SortMore.
Context {T : Type} (key : T → Z).

(** An element is inserted behind smaller keys only, so it overtakes no
    element with its own key. *)
Lemma insertByAddr_filter (a : Z) (x : T) (l : list T) :
  filter (λ y, key y = a) (insertByAddr key x l)
  = filter (λ y, key y = a) (x :: l).
Proof.
  induction l as [|y l IH]; [done|]. simpl. case_decide as Hlt; [|done].
  rewrite filter_cons, IH, !filter_cons.
  destruct (decide (key y = a)) as [Hy|Hy];
    destruct (decide (key x = a)) as [Hx|Hx]; try done. lia.
Qed.

Lemma sortByAddr_filter (a : Z) (l : list T) :
  filter (λ y, key y = a) (sortByAddr key l) = filter (λ y, key y = a) l.
Proof.
  induction l as [|x l IH]; [done|]. unfold sortByAddr in *. simpl.
  by rewrite insertByAddr_filter, !filter_cons, IH.
Qed.

(** An array already in order is returned as it is. *)
Lemma sortByAddr_sorted_id (l : list T) :
  StronglySorted (λ a b, key a ≤ key b) l → sortByAddr key l = l.
Proof.
  induction 1 as [|x l Hs IH Hx]; [done|].
  unfold sortByAddr in *. simpl. rewrite IH.
  destruct l as [|y l]; [done|]. simpl.
  apply Forall_cons in Hx as [Hxy _]. rewrite decide_False; [done|lia].
Qed.

(** X1.  [sortByAddr] returns the elements of its input, each as often
    as it occurs there, in non-decreasing order of address; elements with
    the same address keep the order they had (the sort is stable); and
    sorting a second time changes nothing. *)
Theorem sortByAddr_stable_sort (l : list T) :
  sortByAddr key l ≡ₚ l
  ∧ StronglySorted (λ a b, key a ≤ key b) (sortByAddr key l)
  ∧ (∀ a, filter (λ y, key y = a) (sortByAddr key l)
          = filter (λ y, key y = a) l)
  ∧ sortByAddr key (sortByAddr key l) = sortByAddr key l.
Proof.
  split; [apply sortByAddr_perm|]. split; [apply sortByAddr_sorted|].
  split; [intros a; apply sortByAddr_filter|].
  apply sortByAddr_sorted_id, sortByAddr_sorted.
Qed.
End SortMore.

(** ** [markReachable] on any heap *)

Lemma objectMap_addrs (l l' : list Obj.t) :
  Obj.addr <$> l = Obj.addr <$> l' → objectMap l = objectMap l'.
Proof.
  intros Heq. unfold objectMap.
  change (imap (λ i o, (Obj.addr o, i)) l)
    with (imap (λ i, (λ a, (a, i)) ∘ Obj.addr) l).
  change (imap (λ i o, (Obj.addr o, i)) l')
    with (imap (λ i, (λ a, (a, i)) ∘ Obj.addr) l').
  by rewrite <- !(imap_fmap (λ i a, (a, i)) Obj.addr), Heq.
Qed.

Section MarkingMore.
Variable objs : list Obj.t.

Lemma markedHeap_addrs (V : gset Z) :
  Obj.addr <$> markedHeap objs V = Obj.addr <$> objs.
Proof.
  apply list_eq. intros r. unfold markedHeap.
  rewrite !list_lookup_fmap, list_lookup_imap.
  destruct (objs !! r) as [o|]; [simpl|done]. by case_decide.
Qed.

Lemma markedHeap_objectMap (V : gset Z) :
  objectMap (markedHeap objs V) = objectMap objs.
Proof. apply objectMap_addrs, markedHeap_addrs. Qed.

(** Marking changes no pointer. *)
Lemma markedHeap_edge (V : gset Z) (a b : Z) :
  edge (markedHeap objs V) a b ↔ edge objs a b.
Proof.
  unfold edge. rewrite markedHeap_objectMap. split.
  - intros (r & o' & Hr & Ho' & Hb). unfold markedHeap in Ho'.
    rewrite list_lookup_imap in Ho'.
    destruct (objs !! r) as [o|] eqn:Ho; [simpl in Ho'|done].
    exists r, o. split; [done|]. split; [done|].
    injection Ho' as <-. by case_decide.
  - intros (r & o & Hr & Ho & Hb). eexists r, _. split; [done|].
    split; [unfold markedHeap; by rewrite list_lookup_imap, Ho|].
    by case_decide.
Qed.

Lemma markedHeap_rtc (V : gset Z) (a b : Z) :
  rtc (edge (markedHeap objs V)) a b ↔ rtc (edge objs) a b.
Proof.
  split; apply rtc_subrel; intros x y; by apply markedHeap_edge.
Qed.

(** Only addresses under which an object is found matter to the marks. *)
Lemma markedHeap_dom (V : gset Z) :
  markedHeap objs (V ∩ dom (objectMap objs)) = markedHeap objs V.
Proof.
  apply list_eq. intros r. unfold markedHeap. rewrite !list_lookup_imap.
  destruct (objs !! r) as [o|]; [simpl|done]. f_equal.
  destruct (decide (Obj.addr o ∈ V ∧ objectMap objs !! Obj.addr o = Some r))
    as [[Hin Hm]|Hout].
  - rewrite decide_True; [done|]. split; [|done].
    apply elem_of_intersection. split; [done|]. apply elem_of_dom. eauto.
  - rewrite decide_False; [done|]. intros [Hin Hm]. apply Hout.
    apply elem_of_intersection in Hin as [Hin _]. done.
Qed.

Lemma markReachable_visitedSet (rootAddr : option Z) :
  ∃ V, markReachable objs rootAddr = Some (markedHeap objs V)
       ∧ visitedSet objs rootAddr V.
Proof.
  destruct (markReachable_visited objs rootAddr)
    as (V & Hrun & Hroot & Hcl & Hsound).
  exists (V ∩ dom (objectMap objs)). rewrite markedHeap_dom.
  split; [done|]. split; [|split; [|split]].
  - intros a Ha Hsome. apply elem_of_intersection.
    split; [by apply Hroot|by apply elem_of_dom].
  - intros x [Hx _]%elem_of_intersection y Hxy Hy.
    apply elem_of_intersection. split; [by apply (Hcl x)|by apply elem_of_dom].
  - intros x [Hx _]%elem_of_intersection. by apply Hsound.
  - intros x [_ Hx]%elem_of_intersection. by apply elem_of_dom.
Qed.

Lemma visitedSet_subseteq (rootAddr : option Z) (V1 V2 : gset Z) :
  visitedSet objs rootAddr V1 → visitedSet objs rootAddr V2 → V1 ⊆ V2.
Proof.
  intros (_ & _ & Hsound1 & Hdom1) (Hroot2 & Hcl2 & _ & _) x Hx.
  destruct (Hsound1 x Hx) as (a & Ha & Hrtc).
  apply (closed_rtc objs V2 a x); [done| |done|by apply Hdom1].
  apply Hroot2; [done|].
  inversion Hrtc as [|? y ? (r & o & Hr & _)]; subst; [by apply Hdom1|eauto].
Qed.

Lemma visitedSet_unique (rootAddr : option Z) (V1 V2 : gset Z) :
  visitedSet objs rootAddr V1 → visitedSet objs rootAddr V2 → V1 = V2.
Proof.
  intros HV1 HV2. apply set_eq. intros x. split.
  - by apply (visitedSet_subseteq rootAddr V1 V2).
  - by apply (visitedSet_subseteq rootAddr V2 V1).
Qed.

Lemma markedHeap_twice (V : gset Z) :
  markedHeap (markedHeap objs V) V = markedHeap objs V.
Proof.
  apply list_eq. intros r. unfold markedHeap at 1.
  rewrite list_lookup_imap, markedHeap_objectMap.
  unfold markedHeap. rewrite list_lookup_imap.
  destruct (objs !! r) as [o|]; [simpl|done]. f_equal.
  destruct (decide (Obj.addr o ∈ V ∧ objectMap objs !! Obj.addr o = Some r))
    as [Hin|Hout]; simpl.
  - by rewrite decide_True.
  - by rewrite decide_False.
Qed.
End MarkingMore.

(** X2.  On any heap — with cycles, pointers to no object, objects
    sharing an address, marks left from before — [markReachable]
    returns; it keeps every object in its place with its id, address,
    size, fields and [newAddr], and changes nothing but [marked], which
    it only ever sets to true, and only on objects reachable from the
    root. *)
Theorem markReachable_sound (objs : list Obj.t) (rootAddr : option Z) :
  ∃ objs',
    markReachable objs rootAddr = Some objs'
    ∧ length objs' = length objs
    ∧ ∀ r o', objs' !! r = Some o' →
        ∃ o, objs !! r = Some o
             ∧ Obj.id o' = Obj.id o ∧ Obj.addr o' = Obj.addr o
             ∧ Obj.size o' = Obj.size o ∧ Obj.fields o' = Obj.fields o
             ∧ Obj.newAddr o' = Obj.newAddr o
             ∧ (Obj.marked o' = Obj.marked o
                ∨ Obj.marked o' = Some true ∧ reachable objs rootAddr o).
Proof.
  destruct (markReachable_visited objs rootAddr)
    as (V & Hrun & _ & _ & Hsound).
  exists (markedHeap objs V). split; [done|].
  split; [by unfold markedHeap; rewrite length_imap|].
  intros r o'. unfold markedHeap. rewrite list_lookup_imap.
  destruct (objs !! r) as [o|] eqn:Ho; [simpl|done]. intros [= <-].
  exists o. split; [done|].
  case_decide as Hin; [|by repeat (split; [done|]); left].
  repeat (split; [done|]). right.
  split; [done|]. destruct Hin as [Hin _].
  destruct (Hsound _ Hin) as (a & -> & Hrtc).
  eapply visited_reachable; [done| |done]. by eapply list_elem_of_lookup_2.
Qed.

(** X3.  Marking is idempotent on any heap: marking the result of
    [markReachable] again from the same root gives that result again. *)
Theorem markReachable_idempotent (objs : list Obj.t) (rootAddr : option Z) :
  markReachable objs rootAddr ≫= (λ objs', markReachable objs' rootAddr)
  = markReachable objs rootAddr.
Proof.
  destruct (markReachable_visitedSet objs rootAddr) as (V & -> & HV).
  simpl.
  destruct (markReachable_visitedSet (markedHeap objs V) rootAddr)
    as (V' & -> & Hroot' & Hcl' & Hsound' & Hdom').
  assert (visitedSet objs rootAddr V') as HV'.
  { split; [|split; [|split]].
    - intros a Ha Hsome. apply Hroot'; [done|].
      by rewrite markedHeap_objectMap.
    - intros x Hx y Hxy Hy. apply (Hcl' x Hx).
      + by apply markedHeap_edge.
      + by rewrite markedHeap_objectMap.
    - intros x Hx. destruct (Hsound' x Hx) as (a & Ha & Hrtc).
      exists a. split; [done|]. by apply markedHeap_rtc in Hrtc.
    - intros x Hx. rewrite <- (markedHeap_objectMap objs V). by apply Hdom'. }
  rewrite (visitedSet_unique objs rootAddr V' V HV' HV).
  by rewrite markedHeap_twice.
Qed.

(** ** [prepareCompaction] on any heap *)

Lemma plan_keys_only (l : list nat) (st : PlanState) (a : Z) :
  is_Some (planMap (foldl planStep st l) !! a) →
  is_Some (planMap st !! a)
  ∨ (∃ r o, r ∈ l ∧ planHeap st !! r = Some o
            ∧ Obj.isMarked o = true ∧ Obj.addr o = a).
Proof.
  revert st. induction l as [|r0 l IH]; intros st; [by left|].
  simpl. intros [Hkey|(r & o & Hr & Ho & Hm & Ha)]%IH.
  - unfold planStep in Hkey.
    destruct (planHeap st !! r0) as [o0|] eqn:Ho0; [|by left].
    destruct (Obj.isMarked o0) eqn:Hm0; [simpl in Hkey|by left].
    rewrite lookup_insert in Hkey. case_decide as Ha; [|by left].
    right. exists r0, o0. split; [apply list_elem_of_here|done].
  - right. pose proof (planStep_unplanned st r0) as Hun.
    destruct (unplanned_lookup _ _ r o (eq_sym Hun) Ho) as (o' & Ho' & Heq).
    apply unplanned_inv in Heq as (_ & Ha' & _ & _ & _ & Hm').
    exists r, o'. split; [by apply list_elem_of_further|].
    split; [done|]. split; congruence.
Qed.

Lemma refSize_unplanned (h h' : list Obj.t) (r : nat) :
  unplanned <$> h' = unplanned <$> h → refSize h' r = refSize h r.
Proof.
  intros Hun. unfold refSize. destruct (h !! r) as [o|] eqn:Ho.
  - destruct (unplanned_lookup _ _ r o Hun Ho) as (o' & -> & Heq).
    apply unplanned_inv in Heq as (_ & _ & Hs & _ & _ & Hm). simpl.
    unfold liveSize. by rewrite Hs, Hm.
  - apply (f_equal (λ l, l !! r)) in Hun.
    rewrite !list_lookup_fmap, Ho in Hun.
    by destruct (h' !! r).
Qed.

Lemma plan_cursor (l : list nat) (st : PlanState) :
  planCursor (foldl planStep st l)
  = planCursor st + sumZ (refSize (planHeap st) <$> l).
Proof.
  revert st. induction l as [|r l IH]; intros st; [simpl; lia|].
  rewrite fmap_cons. simpl. rewrite IH.
  assert (refSize (planHeap (planStep st r)) <$> l
          = refSize (planHeap st) <$> l) as ->.
  { apply list_fmap_ext. intros i r' _.
    apply refSize_unplanned, planStep_unplanned. }
  assert (planCursor (planStep st r)
          = planCursor st + refSize (planHeap st) r) as ->; [|lia].
  unfold planStep, refSize.
  destruct (planHeap st !! r) as [o|]; simpl; [|lia].
  unfold liveSize. destruct (Obj.isMarked o); simpl; lia.
Qed.

Lemma prepared_nextFree (objs : list Obj.t) (memorySize : Z)
    (rootAddr : option Z) :
  preparedNextFree (prepareCompaction objs memorySize rootAddr)
  = liveTotal objs.
Proof.
  unfold prepareCompaction. simpl. rewrite plan_cursor. simpl.
  unfold liveTotal, refSize.
  transitivity (sumZ ((λ o, from_option liveSize 0 (Some o)) <$> objs));
    [|done].
  rewrite <- (refs_lookup objs (from_option liveSize 0)).
  apply sumZ_perm, fmap_Permutation, sortByAddr_perm.
Qed.

(** X4.  On any heap the keys of the mapping [prepareCompaction] returns
    are exactly the addresses of the marked objects — an address of
    garbage only, or of no object, is never a key — and [nextFree] is the
    total size of the marked objects. *)
Theorem prepareCompaction_keys
    (objs : list Obj.t) (memorySize : Z) (rootAddr : option Z) :
  let p := prepareCompaction objs memorySize rootAddr in
  (∀ a, is_Some (oldToNew p !! a)
        ↔ ∃ o, o ∈ objs ∧ Obj.isMarked o = true ∧ Obj.addr o = a)
  ∧ preparedNextFree p = liveTotal objs.
Proof.
  intros p. unfold p, prepareCompaction. simpl. split.
  - intros a. split.
    + intros [Hkey|(r & o & _ & Ho & Hm & Ha)]%plan_keys_only.
      * simpl in Hkey. rewrite lookup_empty in Hkey. by destruct Hkey.
      * exists o. split; [by eapply list_elem_of_lookup_2|done].
    + intros (o & [r Hr]%list_elem_of_lookup & Hm & Ha).
      apply plan_keys. right. exists r, o.
      split; [|done]. rewrite sortByAddr_perm. apply elem_of_seq.
      apply lookup_lt_Some in Hr. lia.
  - apply (prepared_nextFree objs memorySize rootAddr).
Qed.

(** ** The compacted heap *)

Lemma sortByAddr_fmap {A B : Type} (key' : B → Z) (key : A → Z)
    (h : A → B) (l : list A) :
  (∀ x, key' (h x) = key x) →
  sortByAddr key' (h <$> l) = h <$> sortByAddr key l.
Proof.
  intros Hkey. induction l as [|x l IH]; [done|].
  rewrite fmap_cons. unfold sortByAddr in *. simpl. rewrite IH.
  generalize (foldr (insertByAddr key) [] l). intros s.
  induction s as [|y s IHs]; [done|]. rewrite fmap_cons. simpl.
  rewrite !Hkey. case_decide; [|done]. by rewrite IHs.
Qed.

Lemma filter_fmap_same {A B : Type} (P' : B → Prop) (P : A → Prop)
    `{!∀ y, Decision (P' y)} `{!∀ x, Decision (P x)}
    (h : A → B) (l : list A) :
  (∀ x, P' (h x) ↔ P x) →
  filter P' (h <$> l) = h <$> filter P l.
Proof.
  intros HP. induction l as [|x l IH]; [done|].
  rewrite fmap_cons, !filter_cons, IH.
  destruct (decide (P' (h x))) as [Hx|Hx];
    destruct (decide (P x)) as [Hx'|Hx']; try done;
    exfalso; by apply HP in Hx || apply HP in Hx'.
Qed.

Lemma liveTotal_survivors (l : list Obj.t) :
  sumZ (liveSize <$> l)
  = sumZ (Obj.size <$> filter (λ o, Obj.isMarked o = true) l).
Proof.
  induction l as [|x l IH]; [done|].
  rewrite fmap_cons. simpl. rewrite IH. unfold liveSize.
  destruct (Obj.isMarked x) eqn:Hm.
  - by rewrite filter_cons_True.
  - by rewrite filter_cons_False by (by rewrite Hm).
Qed.

(** A list of objects that starts at [c] and leaves no gap ends at [c]
    plus its total size. *)
Lemma dense_lastEnd (l : list Obj.t) (c : Z) :
  (∀ i o, l !! i = Some o → Obj.addr o = c + sumZ (Obj.size <$> take i l)) →
  Forall (λ o, 0 ≤ Obj.size o) l →
  foldl (λ m o, Z.max m (Obj.addr o + Obj.size o)) c l
  = c + sumZ (Obj.size <$> l).
Proof.
  revert c. induction l as [|x l IH]; intros c Hdense Hsz; [simpl; lia|].
  apply Forall_cons in Hsz as [Hx Hsz]. rewrite fmap_cons. simpl.
  assert (Obj.addr x = c) as Hx0.
  { rewrite (Hdense 0%nat x eq_refl). rewrite take_0, fmap_nil. simpl. lia. }
  replace (Z.max c (Obj.addr x + Obj.size x)) with (c + Obj.size x) by lia.
  rewrite IH; [lia| |done].
  intros i o Hi. rewrite (Hdense (S i) o Hi).
  rewrite firstn_cons, fmap_cons. simpl. lia.
Qed.

Lemma isMarked_preparedObject (objs : list Obj.t) (m : gmap Z Z) (o : Obj.t) :
  Obj.isMarked (preparedObject objs m o) = Obj.isMarked o.
Proof. unfold preparedObject. destruct (Obj.isMarked o) eqn:Hm; exact Hm. Qed.

Section Compacted.
Variables (objs : list Obj.t) (memorySize : Z) (rootAddr : option Z).
Hypothesis distinct : NoDup (Obj.addr <$> objs).

(** With distinct addresses the prepared heap is the input, object by
    object. *)
Lemma prepared_closed :
  preparedObjects (prepareCompaction objs memorySize rootAddr)
  = preparedObject objs
      (oldToNew (prepareCompaction objs memorySize rootAddr)) <$> objs.
Proof.
  destruct (planned_sorted objs distinct) as (_ & Hmarked & Hrest).
  apply list_eq. intros r. rewrite prepared_lookup, list_lookup_fmap.
  destruct (objs !! r) as [o|] eqn:Ho.
  - unfold preparedObject. simpl. destruct (Obj.isMarked o) eqn:Hm.
    + by destruct (Hmarked r o Ho Hm) as [-> _].
    + by destruct (Hrest r o Ho Hm) as [-> _].
  - destruct (prepared_frame objs memorySize rootAddr r) as [_ Hback].
    rewrite prepared_lookup in Hback.
    destruct (planHeap _ !! r) as [o'|]; [|done].
    destruct (Hback _ eq_refl) as [o Ho']. congruence.
Qed.

(** And the crunched heap is the marked objects in address order, each
    moved to the live size below it. *)
Lemma crunch_closed :
  let p := prepareCompaction objs memorySize rootAddr in
  crunch (preparedObjects p) (oldToNew p)
  = Some (crunchedObject objs (oldToNew p) <$> survivors objs).
Proof.
  intros p. subst p. rewrite (crunch_prepared objs _ _ distinct).
  f_equal. rewrite prepared_closed.
  set (m := oldToNew (prepareCompaction objs memorySize rootAddr)).
  rewrite (sortByAddr_fmap Obj.addr Obj.addr); last first.
  { intros o. unfold preparedObject. by destruct (Obj.isMarked o). }
  rewrite (filter_fmap_same _ (λ o, Obj.isMarked o = true)); last first.
  { intros o. by rewrite isMarked_preparedObject. }
  rewrite <- list_fmap_compose. apply list_fmap_ext. intros i o _. simpl.
  unfold crunchedObject. f_equal.
  unfold preparedObject. by destruct (Obj.isMarked o).
Qed.

Lemma survivors_prefix (i : nat) (o : Obj.t) :
  survivors objs !! i = Some o →
  liveBelow objs (Obj.addr o) = sumZ (Obj.size <$> take i (survivors objs)).
Proof.
  intros Hi.
  rewrite (liveBelow_perm objs (sortByAddr Obj.addr objs))
    by (by rewrite sortByAddr_perm).
  apply liveBelow_prefix; [|done]. by apply sortByAddr_strict.
Qed.
End Compacted.

(** The crunched heap has no gap, and its total size is the live size. *)
Lemma crunched_dense (objs : list Obj.t) (m : gmap Z Z) :
  NoDup (Obj.addr <$> objs) →
  let kept := crunchedObject objs m <$> survivors objs in
  (∀ i o, kept !! i = Some o → Obj.addr o = sumZ (Obj.size <$> take i kept))
  ∧ sumZ (Obj.size <$> kept) = liveTotal objs
  ∧ Obj.size <$> kept = Obj.size <$> survivors objs.
Proof.
  intros Hnd kept.
  assert (Obj.size <$> kept = Obj.size <$> survivors objs) as Hsizes.
  { unfold kept. rewrite <- list_fmap_compose.
    apply list_fmap_ext. intros i o _. simpl.
    unfold preparedObject. by destruct (Obj.isMarked o). }
  split; [|split; [|done]].
  - intros i o. unfold kept at 1. rewrite list_lookup_fmap.
    destruct (survivors objs !! i) as [o0|] eqn:Ho0; [simpl|done].
    intros [= <-]. simpl. rewrite fmap_take, Hsizes, <- fmap_take.
    by apply survivors_prefix.
  - rewrite Hsizes. unfold liveTotal. rewrite liveTotal_survivors.
    unfold survivors. apply sumZ_perm, fmap_Permutation.
    by rewrite sortByAddr_perm.
Qed.

(** X5.  On a heap with distinct addresses, [crunch] after
    [prepareCompaction] returns a heap without gaps: the first object
    lies at address 0 and each next one starts where the one before it
    ends, so every object's address is the total size of the objects in
    front of it; the total size of the heap is [nextFree], and with
    non-negative sizes so is the end of its last object. *)
Theorem crunch_leaves_no_gap
    (objs : list Obj.t) (memorySize : Z) (rootAddr : option Z) :
  NoDup (Obj.addr <$> objs) →
  let p := prepareCompaction objs memorySize rootAddr in
  ∃ kept,
    crunch (preparedObjects p) (oldToNew p) = Some kept
    ∧ (∀ i o, kept !! i = Some o →
         Obj.addr o = sumZ (Obj.size <$> take i kept))
    ∧ sumZ (Obj.size <$> kept) = preparedNextFree p
    ∧ (Forall (λ o, 0 ≤ Obj.size o) objs →
       lastEnd kept = preparedNextFree p).
Proof.
  intros Hnd p. subst p. eexists. split; [by apply crunch_closed|].
  destruct (crunched_dense objs
              (oldToNew (prepareCompaction objs memorySize rootAddr)) Hnd)
    as (Hdense & Htotal & Hsizes).
  rewrite prepared_nextFree.
  split; [done|]. split; [done|]. intros Hsz.
  rewrite <- Htotal. unfold lastEnd. rewrite dense_lastEnd; [done| |].
  - intros i o Hi. by rewrite (Hdense i o Hi).
  - apply (proj1 (Forall_fmap Obj.size (λ z, 0 ≤ z) _)). rewrite Hsizes.
    apply Forall_fmap, Forall_forall. intros o Ho. simpl.
    unfold survivors in Ho. apply list_elem_of_filter in Ho as [_ Ho].
    rewrite sortByAddr_perm in Ho. rewrite Forall_forall in Hsz.
    by apply Hsz.
Qed.

Lemma crunch_leaves_no_gap_witness :
  let objs := [ Obj.mk "A" 2 4 [Some 8; Some 14; None] (Some true) None;
                Obj.mk "D" 22 5 [None; None; None; None] None None;
                Obj.mk "B" 8 3 [Some 14; None] (Some true) None ] in
  let p := prepareCompaction objs 36 (Some 2) in
  ∃ kept,
    crunch (preparedObjects p) (oldToNew p) = Some kept
    ∧ (∀ i o, kept !! i = Some o →
         Obj.addr o = sumZ (Obj.size <$> take i kept))
    ∧ sumZ (Obj.size <$> kept) = preparedNextFree p
    ∧ (Forall (λ o, 0 ≤ Obj.size o) objs →
       lastEnd kept = preparedNextFree p).
Proof.
  intros objs. apply (crunch_leaves_no_gap objs 36 (Some 2)).
  apply (bool_decide_unpack _). vm_compute. exact I.
Defined.

(** ** Sliding left *)

Lemma liveSize_bounds (o : Obj.t) :
  0 ≤ Obj.size o → 0 ≤ liveSize o ≤ Obj.size o.
Proof. unfold liveSize. destruct (Obj.isMarked o); lia. Qed.

Lemma layout_distinct (objs : list Obj.t) :
  layout objs → NoDup (Obj.addr <$> objs).
Proof.
  intros [Hs Hpos]. apply StronglySorted_lt_NoDup.
  apply (StronglySorted_fmap_in _
           (λ x y, Obj.addr x + Obj.size x ≤ Obj.addr y)); [|done].
  intros x y Hx _ Hxy. rewrite Forall_forall in Hpos.
  specialize (Hpos x Hx). simpl in Hpos. lia.
Qed.

(** In a laid-out heap whose objects start at [c] or later, the live
    size below an object fits between [c] and its address. *)
Lemma liveBelow_le_addr (l : list Obj.t) (c : Z) (o : Obj.t) :
  StronglySorted (λ x y, Obj.addr x + Obj.size x ≤ Obj.addr y) l →
  Forall (λ x, c ≤ Obj.addr x ∧ 0 < Obj.size x) l →
  o ∈ l →
  0 ≤ liveBelow l (Obj.addr o) ∧ c + liveBelow l (Obj.addr o) ≤ Obj.addr o.
Proof.
  intros Hs. revert c. induction Hs as [|x l Hs IH Hx]; intros c Hpos Ho.
  - by apply elem_of_nil in Ho.
  - apply Forall_cons in Hpos as [[Hcx Hsx] Hpos].
    assert (liveBelow (x :: l) (Obj.addr o)
            = (if decide (Obj.addr x < Obj.addr o) then liveSize x else 0)
              + liveBelow l (Obj.addr o)) as -> by done.
    pose proof (liveSize_bounds x) as Hlx.
    apply elem_of_cons in Ho as [->|Ho].
    + rewrite decide_False by lia. rewrite liveBelow_none; [lia|].
      eapply Forall_impl; [exact Hx|]. simpl. lia.
    + destruct (IH (Obj.addr x + Obj.size x)) as [Hge Hle]; [|done|].
      * apply Forall_forall. intros y Hy. rewrite Forall_forall in Hx, Hpos.
        specialize (Hx y Hy). specialize (Hpos y Hy). simpl in *. lia.
      * case_decide; lia.
Qed.

Lemma liveTotal_le_lastEnd (l : list Obj.t) (c m0 : Z) :
  StronglySorted (λ x y, Obj.addr x + Obj.size x ≤ Obj.addr y) l →
  Forall (λ x, c ≤ Obj.addr x ∧ 0 < Obj.size x) l →
  c ≤ m0 →
  0 ≤ liveTotal l
  ∧ c + liveTotal l ≤ foldl (λ m o, Z.max m (Obj.addr o + Obj.size o)) m0 l.
Proof.
  intros Hs. revert c m0.
  induction Hs as [|x l Hs IH Hx]; intros c m0 Hpos Hcm.
  - unfold liveTotal. simpl. lia.
  - apply Forall_cons in Hpos as [[Hcx Hsx] Hpos].
    assert (liveTotal (x :: l) = liveSize x + liveTotal l) as -> by done.
    pose proof (liveSize_bounds x) as Hlx. simpl.
    destruct (IH (Obj.addr x + Obj.size x)
                (Z.max m0 (Obj.addr x + Obj.size x))) as [Hge Hle]; [|lia|lia].
    apply Forall_forall. intros y Hy. rewrite Forall_forall in Hx, Hpos.
    specialize (Hx y Hy). specialize (Hpos y Hy). simpl in *. lia.
Qed.

(** X6.  In a heap laid out in address order without overlap, from
    address 0 on, with positive sizes, [prepareCompaction] plans every
    marked object at an address between 0 and its present one — objects
    only slide left — and [nextFree] lies between 0 and the end of the
    last object. *)
Theorem prepareCompaction_slides_left
    (objs : list Obj.t) (memorySize : Z) (rootAddr : option Z) :
  layout objs →
  let p := prepareCompaction objs memorySize rootAddr in
  (∀ r o, objs !! r = Some o → Obj.isMarked o = true →
     ∃ o' n, preparedObjects p !! r = Some o'
             ∧ Obj.newAddr o' = Some (Some n)
             ∧ oldToNew p !! Obj.addr o = Some n
             ∧ 0 ≤ n ≤ Obj.addr o)
  ∧ 0 ≤ preparedNextFree p ≤ lastEnd objs.
Proof.
  intros Hlay p. pose proof (layout_distinct objs Hlay) as Hnd.
  destruct Hlay as [Hs Hpos].
  destruct (planned_sorted objs Hnd) as (_ & Hmarked & _). split.
  - intros r o Ho Hm. destruct (Hmarked r o Ho Hm) as [Hh Hmap].
    eexists _, (liveBelow objs (Obj.addr o)).
    split; [unfold p; by rewrite prepared_lookup, Hh|].
    split; [done|]. split; [done|].
    destruct (liveBelow_le_addr objs 0 o Hs Hpos) as [Hge Hle];
      [by eapply list_elem_of_lookup_2|lia].
  - unfold p. rewrite prepared_nextFree.
    destruct (liveTotal_le_lastEnd objs 0 0 Hs Hpos) as [Hge Hle]; [done|].
    unfold lastEnd. lia.
Qed.

(** ** A whole collection *)

Section Collection.
Variables (objs : list Obj.t) (memorySize : Z) (rootAddr : option Z).
Hypothesis distinct : NoDup (Obj.addr <$> objs).
Hypothesis unmarked : Forall (λ o, Obj.isMarked o = false) objs.
Variable V : gset Z.
Hypothesis visitedV : visitedSet objs rootAddr V.

Let objsM := markedHeap objs V.
Let p := prepareCompaction objsM memorySize rootAddr.
Let move (o : Obj.t) : Obj.t :=
  crunchedObject objsM (oldToNew p) (Obj.setMarked o).

Lemma visited_iff_reachable (o : Obj.t) :
  o ∈ objs → Obj.addr o ∈ V ↔ reachable objs rootAddr o.
Proof.
  destruct visitedV as (Hroot & Hcl & Hsound & _). intros Ho. split.
  - intros Hin. destruct (Hsound _ Hin) as (a & -> & Hrtc).
    by eapply visited_reachable.
  - by apply reachable_visited.
Qed.

Lemma marked_in_heap (oM : Obj.t) :
  oM ∈ objsM ∧ Obj.isMarked oM = true
  ↔ ∃ o, o ∈ objs ∧ reachable objs rootAddr o ∧ oM = Obj.setMarked o.
Proof.
  split.
  - intros [[r Hr]%list_elem_of_lookup Hm].
    destruct (markedHeap_distinct objs distinct V r oM Hr) as (o & Ho & ->).
    assert (o ∈ objs) as Hin by (by eapply list_elem_of_lookup_2).
    exists o. split; [done|]. case_decide as HV.
    + split; [by apply visited_iff_reachable|done].
    + rewrite Forall_forall in unmarked. by rewrite (unmarked o Hin) in Hm.
  - intros (o & [r Hr]%list_elem_of_lookup & Hreach & ->).
    split; [|done]. apply list_elem_of_lookup. exists r.
    unfold objsM, markedHeap. rewrite list_lookup_imap, Hr. simpl.
    rewrite decide_True; [done|]. split.
    + apply visited_iff_reachable; [by eapply list_elem_of_lookup_2|done].
    + by apply objectMap_lookup_NoDup.
Qed.

Lemma distinctM : NoDup (Obj.addr <$> objsM).
Proof. unfold objsM. by rewrite markedHeap_addrs. Qed.

(** The mapping holds the new address of every reachable object. *)
Lemma mapped_reachable (o : Obj.t) :
  o ∈ objs → reachable objs rootAddr o →
  oldToNew p !! Obj.addr o = Some (Obj.addr (move o)).
Proof.
  intros Ho Hreach.
  destruct (proj2 (marked_in_heap (Obj.setMarked o))) as [HoM _];
    [by exists o|].
  apply list_elem_of_lookup in HoM as [r Hr].
  destruct (planned_sorted objsM distinctM) as (_ & Hmarked & _).
  by destruct (Hmarked r _ Hr eq_refl) as [_ Hmap].
Qed.

Lemma kept_iff (o3 : Obj.t) :
  o3 ∈ crunchedObject objsM (oldToNew p) <$> survivors objsM
  ↔ ∃ o, o ∈ objs ∧ reachable objs rootAddr o ∧ o3 = move o.
Proof.
  rewrite list_elem_of_fmap. unfold survivors. split.
  - intros (oM & -> & [Hm HoM]%list_elem_of_filter).
    rewrite sortByAddr_perm in HoM.
    destruct (proj1 (marked_in_heap oM)) as (o & Ho & Hreach & ->); [done|].
    by exists o.
  - intros (o & Ho & Hreach & ->). exists (Obj.setMarked o). split; [done|].
    destruct (proj2 (marked_in_heap (Obj.setMarked o))) as [HoM Hm];
      [by exists o|].
    apply list_elem_of_filter. split; [done|]. by rewrite sortByAddr_perm.
Qed.

Lemma move_field (o t : Obj.t) (j : nat) :
  reachable objs rootAddr o → t ∈ objs →
  Obj.fields o !! j = Some (Some (Obj.addr t)) →
  Obj.fields (move o) !! j = Some (Some (Obj.addr (move t))).
Proof.
  intros Hreach Ht Hj.
  assert (reachable objs rootAddr t) as Hreach'.
  { eapply reachable_hop; [exact Hreach|done|].
    by eapply list_elem_of_lookup_2. }
  pose proof (mapped_reachable t Ht Hreach') as Hmap.
  assert (retarget (oldToNew p) (Some (Obj.addr t))
          = Some (Obj.addr (move t))) as Hre
    by (unfold retarget; by rewrite Hmap).
  change (Obj.fields (move o)) with (retarget (oldToNew p) <$> Obj.fields o).
  rewrite list_lookup_fmap, Hj. by rewrite <- Hre.
Qed.

Lemma move_reachable (o : Obj.t) :
  reachable objs rootAddr o →
  reachable (crunchedObject objsM (oldToNew p) <$> survivors objsM)
            (newRoot p) (move o).
Proof.
  induction 1 as [o Ho Hr|o o' Hreach IH Ho' Hf].
  - apply reachable_root.
    + apply kept_iff. exists o. split; [done|]. split; [|done].
      by apply reachable_root.
    + pose proof (mapped_reachable o Ho (reachable_root _ _ o Ho Hr)) as Hmap.
      unfold p, prepareCompaction in *. simpl in *. rewrite Hr.
      by rewrite Hmap.
  - assert (reachable objs rootAddr o') as Hreach'
      by (by eapply reachable_hop).
    eapply reachable_hop; [exact IH| |].
    + apply kept_iff. by exists o'.
    + apply list_elem_of_lookup in Hf as [j Hj].
      apply list_elem_of_lookup. exists j. by apply move_field.
Qed.
End Collection.

(** X7.  A whole collection keeps the reachable part of the heap and
    nothing else.  On a heap of unmarked objects with distinct addresses,
    [markReachable], [prepareCompaction] and [crunch] in turn return, and
    there is a map [move] from the objects before to the objects after
    such that: the objects after are exactly the moved reachable
    objects; a moved object keeps its id, size and number of fields and
    is unmarked and unplanned; a field of a reachable object that pointed
    to an object points to that object moved, and an empty field stays
    empty; the new root points to the moved root object; and every object
    after the collection is reachable from the new root. *)
Theorem collection_preserves_graph
    (objs : list Obj.t) (memorySize : Z) (rootAddr : option Z) :
  NoDup (Obj.addr <$> objs) →
  Forall (λ o, Obj.isMarked o = false) objs →
  ∃ objsM kept (move : Obj.t → Obj.t),
    let p := prepareCompaction objsM memorySize rootAddr in
    markReachable objs rootAddr = Some objsM
    ∧ crunch (preparedObjects p) (oldToNew p) = Some kept
    ∧ (∀ o3, o3 ∈ kept
             ↔ ∃ o, o ∈ objs ∧ reachable objs rootAddr o ∧ o3 = move o)
    ∧ (∀ o, Obj.id (move o) = Obj.id o ∧ Obj.size (move o) = Obj.size o
            ∧ length (Obj.fields (move o)) = length (Obj.fields o)
            ∧ Obj.marked (move o) = Some false
            ∧ Obj.newAddr (move o) = Some None)
    ∧ (∀ o t j, reachable objs rootAddr o → t ∈ objs →
         Obj.fields o !! j = Some (Some (Obj.addr t)) →
         Obj.fields (move o) !! j = Some (Some (Obj.addr (move t))))
    ∧ (∀ o j, Obj.fields o !! j = Some None →
         Obj.fields (move o) !! j = Some None)
    ∧ (∀ o, o ∈ objs → rootAddr = Some (Obj.addr o) →
         newRoot p = Some (Obj.addr (move o)))
    ∧ (∀ o3, o3 ∈ kept → reachable kept (newRoot p) o3).
Proof.
  intros Hnd Hun.
  destruct (markReachable_visitedSet objs rootAddr) as (V & Hrun & HV).
  set (objsM := markedHeap objs V).
  set (p := prepareCompaction objsM memorySize rootAddr).
  exists objsM, (crunchedObject objsM (oldToNew p) <$> survivors objsM),
    (λ o, crunchedObject objsM (oldToNew p) (Obj.setMarked o)).
  split; [done|].
  split; [apply crunch_closed; unfold objsM; by rewrite markedHeap_addrs|].
  split; [apply (kept_iff objs memorySize rootAddr Hnd Hun V HV)|].
  split.
  { intros o. unfold crunchedObject, preparedObject. simpl.
    by rewrite length_fmap. }
  split; [apply (move_field objs memorySize rootAddr Hnd Hun V HV)|].
  split.
  { intros o j Hj.
    change (Obj.fields (crunchedObject objsM (oldToNew p) (Obj.setMarked o)))
      with (retarget (oldToNew p) <$> Obj.fields o).
    by rewrite list_lookup_fmap, Hj. }
  split.
  { intros o Ho Hr.
    pose proof (mapped_reachable objs memorySize rootAddr Hnd Hun V HV o Ho
                  (reachable_root _ _ o Ho Hr)) as Hmap.
    fold objsM p in Hmap. unfold p at 1, prepareCompaction. simpl.
    rewrite Hr. unfold p, prepareCompaction in Hmap. simpl in Hmap.
    by rewrite Hmap. }
  intros o3 (o & Ho & Hreach & ->)%(kept_iff objs memorySize rootAddr Hnd Hun V HV).
  by apply (move_reachable objs memorySize rootAddr Hnd Hun V HV).
Qed.

Lemma collection_preserves_graph_witness :
  let objs := Scenario.objects makeDefaultScenario in
  ∃ objsM kept (move : Obj.t → Obj.t),
    let p := prepareCompaction objsM 36 (Some 2) in
    markReachable objs (Some 2) = Some objsM
    ∧ crunch (preparedObjects p) (oldToNew p) = Some kept
    ∧ (∀ o3, o3 ∈ kept
             ↔ ∃ o, o ∈ objs ∧ reachable objs (Some 2) o ∧ o3 = move o)
    ∧ (∀ o, Obj.id (move o) = Obj.id o ∧ Obj.size (move o) = Obj.size o
            ∧ length (Obj.fields (move o)) = length (Obj.fields o)
            ∧ Obj.marked (move o) = Some false
            ∧ Obj.newAddr (move o) = Some None)
    ∧ (∀ o t j, reachable objs (Some 2) o → t ∈ objs →
         Obj.fields o !! j = Some (Some (Obj.addr t)) →
         Obj.fields (move o) !! j = Some (Some (Obj.addr (move t))))
    ∧ (∀ o j, Obj.fields o !! j = Some None →
         Obj.fields (move o) !! j = Some None)
    ∧ (∀ o, o ∈ objs → Some 2 = Some (Obj.addr o) →
         newRoot p = Some (Obj.addr (move o)))
    ∧ (∀ o3, o3 ∈ kept → reachable kept (newRoot p) o3).
Proof.
  intros objs. apply (collection_preserves_graph objs 36 (Some 2)).
  - apply (bool_decide_unpack _). vm_compute. exact I.
  - apply (bool_decide_unpack _). vm_compute. exact I.
Defined.

(** A heap in which nothing is marked is left as it is by
    [prepareCompaction], with an empty mapping. *)
Lemma plan_unmarked (l : list nat) (st : PlanState) :
  Forall (λ o, Obj.isMarked o = false) (planHeap st) →
  foldl planStep st l = st.
Proof.
  intros Hun. induction l as [|r l IH]; [done|]. simpl.
  assert (planStep st r = st) as ->; [|done].
  unfold planStep. destruct (planHeap st !! r) as [o|] eqn:Ho; [|done].
  rewrite Forall_forall in Hun.
  by rewrite (Hun o (list_elem_of_lookup_2 _ _ _ Ho)).
Qed.

Lemma crunchLoop_unmarked (m : gmap Z Z) (l kept : list Obj.t) :
  Forall (λ o, Obj.isMarked o = false) l → crunchLoop m l kept = Some kept.
Proof. induction 1 as [|o l Ho _ IH]; [done|]. simpl. by rewrite Ho. Qed.

(** X8.  When the root is empty, or points to no object, a collection of
    a heap of unmarked objects removes everything: marking and preparing
    leave the heap as it is, with an empty mapping, an empty root and
    nextFree 0, and [crunch] returns the empty heap. *)
Theorem collection_without_root
    (objs : list Obj.t) (memorySize : Z) (rootAddr : option Z) :
  Forall (λ o, Obj.isMarked o = false) objs →
  (∀ a o, rootAddr = Some a → o ∈ objs → Obj.addr o ≠ a) →
  let p := prepareCompaction objs memorySize rootAddr in
  markReachable objs rootAddr = Some objs
  ∧ preparedObjects p = objs
  ∧ oldToNew p = ∅ ∧ newRoot p = None ∧ preparedNextFree p = 0
  ∧ crunch (preparedObjects p) (oldToNew p) = Some [].
Proof.
  intros Hun Hroot p.
  assert (markReachable objs rootAddr = Some objs) as Hmark.
  { unfold markReachable. destruct rootAddr as [a|]; [simpl|done].
    destruct (objectMap objs !! a) as [r|] eqn:Hr; [|done].
    destruct (objectMap_lookup_Some _ _ _ Hr) as (o & Ho & Ha).
    exfalso. eapply (Hroot a o); [done| |done].
    by eapply list_elem_of_lookup_2. }
  assert (planned objs (sortByAddr (addrAt objs) (refs objs))
          = mkPlanState objs ∅ 0) as Hplan
    by (by apply plan_unmarked).
  assert (preparedObjects p = objs) as Hobjs.
  { unfold p, prepareCompaction. fold (planned objs (sortByAddr (addrAt objs) (refs objs))).
    rewrite Hplan. simpl. rewrite <- (list_fmap_id objs) at 2.
    apply list_fmap_ext. intros i o _. destruct o as [? ? ? fs ? ?].
    unfold Obj.setFields. simpl. f_equal.
    rewrite <- (list_fmap_id fs) at 2. apply list_fmap_ext.
    intros j [c|] _; [|done]. simpl. by rewrite lookup_empty. }
  assert (oldToNew p = ∅) as Hmap.
  { unfold p, prepareCompaction.
    fold (planned objs (sortByAddr (addrAt objs) (refs objs))).
    by rewrite Hplan. }
  split; [done|]. split; [done|]. split; [done|]. split; [|split].
  - unfold p, prepareCompaction.
    fold (planned objs (sortByAddr (addrAt objs) (refs objs))).
    rewrite Hplan. simpl. destruct rootAddr; [|done].
    by rewrite lookup_empty.
  - unfold p, prepareCompaction.
    fold (planned objs (sortByAddr (addrAt objs) (refs objs))).
    by rewrite Hplan.
  - rewrite Hobjs. unfold crunch. apply crunchLoop_unmarked.
    by rewrite sortByAddr_perm.
Qed.

Lemma collection_without_root_witness :
  let objs := Scenario.objects makeDefaultScenario in
  let p := prepareCompaction objs 36 (Some 3) in
  markReachable objs (Some 3) = Some objs
  ∧ preparedObjects p = objs
  ∧ oldToNew p = ∅ ∧ newRoot p = None ∧ preparedNextFree p = 0
  ∧ crunch (preparedObjects p) (oldToNew p) = Some [].
Proof.
  intros objs. apply (collection_without_root objs 36 (Some 3)).
  - apply (bool_decide_unpack _). vm_compute. exact I.
  - intros a o [= <-] Ho. revert o Ho. apply Forall_forall.
    apply (bool_decide_unpack _). vm_compute. exact I.
Defined.

(** ** Stepping forward and back *)

(** What Next does when it completes. *)
Lemma autoRun_shape (s s' : State) :
  autoRun s = Normal s' →
  (phase s = Crunch ∧ s' = s)
  ∨ (phaseIndex (phase s') = S (phaseIndex (phase s))
     ∧ history s' = pushHistory s ∧ scenario s' = scenario s).
Proof.
  unfold autoRun. destruct (phase s) eqn:Hph.
  - unfold doMark. case_decide; [congruence|].
    destruct (markReachable _ _); [|done]. intros [= <-]. by right.
  - rewrite (doPrepare_Mark s Hph). intros [= <-]. by right.
  - unfold doCrunch. case_decide; [congruence|].
    destruct (crunch _ _); [|done]. intros [= <-]. by right.
  - intros [= <-]. by left.
Qed.

(** X9.  Previous undoes Next: whenever Next, pressed outside the last
    phase, completes, it has advanced the phase by one and pushed one
    snapshot, and Previous pressed right after gives back the state Next
    was pressed in, whatever that state was. *)
Theorem goPrev_undoes_autoRun (s s' : State) :
  phase s ≠ Crunch → autoRun s = Normal s' →
  phaseIndex (phase s') = S (phaseIndex (phase s))
  ∧ history s' = history s ++ [takeSnap s]
  ∧ goPrev s' = Normal s.
Proof.
  intros Hph [[Hc _]|(Hnext & Hhist & Hsc)]%autoRun_shape; [done|].
  split; [done|]. split; [done|]. by apply goPrev_pushHistory.
Qed.

Lemma goPrev_undoes_autoRun_witness :
  ∃ s', autoRun initialState = Normal s'
        ∧ phaseIndex (phase s') = S (phaseIndex (phase initialState))
        ∧ history s' = history initialState ++ [takeSnap initialState]
        ∧ goPrev s' = Normal initialState.
Proof.
  eexists. split; [vm_compute; reflexivity|].
  apply (goPrev_undoes_autoRun initialState); [discriminate|].
  vm_compute. reflexivity.
Defined.

Lemma initialState_historyOK : historyOK initialState.
Proof. split; [done|]. intros i snap Hi. done. Qed.

Lemma historyOK_step (e : Event) (s s' : State) :
  historyOK s → handle e s = Normal s' → historyOK s'.
Proof.
  intros [Hlen Hidx]. destruct e; simpl.
  - intros [= <-]. apply initialState_historyOK.
  - unfold addGarbage. repeat case_decide; by intros [= <-].
  - unfold goPrev. destruct (last (history s)) as [snap|] eqn:Hlast;
      [|by intros [= <-]].
    apply last_Some in Hlast as [h Hh]. intros [= <-].
    rewrite Hh in Hlen, Hidx |- *. rewrite removelast_last.
    unfold historyOK. simpl. split.
    + symmetry. apply (Hidx (length h) snap).
      by rewrite lookup_app_r, Nat.sub_diag.
    + intros i snap' Hi. apply Hidx. by apply lookup_app_l_Some.
  - intros [[Hc ->]|(Hnext & Hhist & _)]%autoRun_shape; [done|].
    split.
    + rewrite Hhist, Hnext. unfold pushHistory. rewrite length_app. simpl.
      lia.
    + intros i snap. rewrite Hhist. unfold pushHistory.
      intros [Hi|[Hge Hi]]%lookup_app_Some; [by apply Hidx|].
      destruct (i - length (history s))%nat eqn:Hd; [|by destruct n].
      simpl in Hi. injection Hi as <-. simpl. lia.
  - unfold changeRoot. case_decide; by intros [= <-].
Qed.

(** X10.  In every state the component reaches, the history holds one
    snapshot for each phase left behind, the [i]-th taken in the [i]-th
    phase of the cycle: its length is the position of the phase, so it is
    empty — Previous is disabled — exactly in phase Idle, and never
    holds more than three snapshots. *)
Theorem reachable_history (s : State) :
  reachableState s →
  length (history s) = phaseIndex (phase s)
  ∧ (∀ i snap, history s !! i = Some snap → phaseIndex (Snap.phase snap) = i)
  ∧ (history s = [] ↔ phase s = Idle)
  ∧ (length (history s) ≤ 3)%nat.
Proof.
  intros Hs.
  assert (historyOK s) as [Hlen Hidx].
  { induction Hs as [|e s s' Hs IH Hstep]; [apply initialState_historyOK|].
    by eapply historyOK_step. }
  split; [done|]. split; [done|]. split.
  - split.
    + intros Hnil. rewrite Hnil in Hlen. by destruct (phase s).
    + intros Hph. rewrite Hph in Hlen. by destruct (history s).
  - rewrite Hlen. destruct (phase s); simpl; lia.
Qed.

Lemma reachable_history_witness :
  length (history initialState) = phaseIndex (phase initialState)
  ∧ (∀ i snap, history initialState !! i = Some snap →
       phaseIndex (Snap.phase snap) = i)
  ∧ (history initialState = [] ↔ phase initialState = Idle)
  ∧ (length (history initialState) ≤ 3)%nat.
Proof. apply (reachable_history initialState). apply reachable_initial. Defined.

(** ** Inserting garbage, continued *)

Lemma lastEnd_fold_perm (l l' : list Obj.t) (m0 : Z) :
  l ≡ₚ l' →
  foldl (λ m o, Z.max m (Obj.addr o + Obj.size o)) m0 l
  = foldl (λ m o, Z.max m (Obj.addr o + Obj.size o)) m0 l'.
Proof.
  intros Hp. revert m0.
  induction Hp as [|x l l' _ IH|x y l|l l' l'' _ IH1 _ IH2]; intros m0; simpl.
  - done.
  - apply IH.
  - f_equal. lia.
  - by rewrite IH1.
Qed.

Lemma lastEnd_perm (l l' : list Obj.t) : l ≡ₚ l' → lastEnd l = lastEnd l'.
Proof. apply lastEnd_fold_perm. Qed.

Lemma lastEnd_snoc (l : list Obj.t) (g : Obj.t) :
  lastEnd (l ++ [g]) = Z.max (lastEnd l) (Obj.addr g + Obj.size g).
Proof. unfold lastEnd. by rewrite foldl_app. Qed.

(** An object behind all others is appended by the sort. *)
Lemma sortByAddr_snoc (l : list Obj.t) (g : Obj.t) :
  StronglySorted (λ x y, Obj.addr x ≤ Obj.addr y) l →
  Forall (λ x, Obj.addr x ≤ Obj.addr g) l →
  sortByAddr Obj.addr (l ++ [g]) = l ++ [g].
Proof.
  intros Hs Hg. apply sortByAddr_sorted_id. apply StronglySorted_app_2.
  - intros x y Hx ->%list_elem_of_singleton. rewrite Forall_forall in Hg.
    by apply Hg.
  - done.
  - repeat constructor.
Qed.

Lemma addGarbage_Idle (rnd : Z) (s : State) :
  phase s = Idle →
  3 ≤ Scenario.memorySize (scenario s) - lastEnd (objects s) →
  addGarbage rnd s
  = Normal (mkState (scenario s)
              (sortByAddr Obj.addr
                 (objects s ++ [Obj.mk ("G" +:+ pretty rnd)
                                  (lastEnd (objects s) + 1) 3 [None; None]
                                  None None]))
              (root s) (phase s) (mapping s) (nextFree s) (history s)).
Proof.
  intros Hph Hfree. unfold addGarbage.
  case_decide; [congruence|]. case_decide; [lia|]. done.
Qed.

(** X11.  In phase Idle with at least 3 cells free behind the last
    object, [addGarbage] adds exactly one object and moves the end of the
    heap by 4 cells — the 3 of the object and the cell it leaves free in
    front of it; it touches neither root, phase, mapping nor history, and
    does not update nextFree.  If the objects were in non-decreasing
    address order with non-negative sizes, the new object is appended
    behind them. *)
Theorem addGarbage_takes_four (rnd : Z) (s : State) :
  phase s = Idle →
  3 ≤ Scenario.memorySize (scenario s) - lastEnd (objects s) →
  ∃ s', addGarbage rnd s = Normal s'
        ∧ length (objects s') = S (length (objects s))
        ∧ lastEnd (objects s') = lastEnd (objects s) + 4
        ∧ nextFree s' = nextFree s ∧ root s' = root s
        ∧ phase s' = phase s ∧ mapping s' = mapping s
        ∧ history s' = history s ∧ scenario s' = scenario s
        ∧ (StronglySorted (λ x y, Obj.addr x ≤ Obj.addr y) (objects s) →
           Forall (λ o, 0 ≤ Obj.size o) (objects s) →
           objects s'
           = objects s ++ [Obj.mk ("G" +:+ pretty rnd)
                             (lastEnd (objects s) + 1) 3 [None; None]
                             None None]).
Proof.
  intros Hph Hfree. eexists. split; [by apply addGarbage_Idle|].
  simpl. set (g := Obj.mk _ _ 3 _ _ _).
  assert (sortByAddr Obj.addr (objects s ++ [g]) ≡ₚ objects s ++ [g]) as Hp
    by apply sortByAddr_perm.
  split; [by rewrite Hp, length_app, Nat.add_1_r|].
  split.
  { rewrite (lastEnd_perm _ _ Hp), lastEnd_snoc. simpl.
    destruct (lastEnd_bound (objects s)) as [Hpos _]. lia. }
  repeat (split; [done|]).
  intros Hs Hsz. apply sortByAddr_snoc; [done|].
  apply Forall_forall. intros o Ho. simpl.
  destruct (lastEnd_bound (objects s)) as [_ Hend]. specialize (Hend o Ho).
  rewrite Forall_forall in Hsz. specialize (Hsz o Ho). simpl in Hsz. lia.
Qed.

Lemma addGarbage_takes_four_witness :
  ∃ s', addGarbage 42 initialState = Normal s'
        ∧ length (objects s') = S (length (objects initialState))
        ∧ lastEnd (objects s') = lastEnd (objects initialState) + 4
        ∧ nextFree s' = nextFree initialState ∧ root s' = root initialState
        ∧ phase s' = phase initialState ∧ mapping s' = mapping initialState
        ∧ history s' = history initialState
        ∧ scenario s' = scenario initialState
        ∧ objects s'
          = objects initialState
              ++ [Obj.mk "G42" 28 3 [None; None] None None].
Proof.
  destruct (addGarbage_takes_four 42 initialState)
    as (s' & Hrun & Hlen & Hend & Hnf & Hroot & Hph & Hmap & Hhist & Hsc & Happ).
  - reflexivity.
  - vm_compute. discriminate.
  - exists s'. repeat (split; [done|]). apply Happ.
    + apply (bool_decide_unpack _). vm_compute. exact I.
    + apply (bool_decide_unpack _). vm_compute. exact I.
Defined.

(** ** The memory tape *)

Lemma assign_inside (i : Z) (v : Cell) (mem : list Cell) :
  0 ≤ i < Z.of_nat (length mem) → assign i v mem = <[Z.to_nat i := v]> mem.
Proof.
  intros Hi. unfold assign. rewrite decide_False by lia.
  by rewrite decide_True by lia.
Qed.

Lemma writeFields_spec (fs : list (option Z)) (cellIdx : Z)
    (mem : list Cell) :
  0 ≤ cellIdx →
  cellIdx + Z.of_nat (length fs) ≤ Z.of_nat (length mem) →
  length (writeFields cellIdx fs mem) = length mem
  ∧ ∀ k : nat,
      writeFields cellIdx fs mem !! k
      = if decide (cellIdx ≤ Z.of_nat k < cellIdx + Z.of_nat (length fs))
        then fieldCell <$> fs !! (k - Z.to_nat cellIdx)%nat
        else mem !! k.
Proof.
  revert cellIdx mem. induction fs as [|v fs IH]; intros cellIdx mem Hpos Hfit.
  - split; [done|]. intros k. simpl. rewrite decide_False; [done|lia].
  - simpl in Hfit |- *. rewrite assign_inside by lia.
    destruct (IH (cellIdx + 1) (<[Z.to_nat cellIdx := fieldCell v]> mem))
      as [Hlen Hlook]; [lia|rewrite length_insert; lia|].
    rewrite length_insert in Hlen. split; [done|]. intros k. rewrite Hlook.
    destruct (decide (Z.of_nat k = cellIdx)) as [Hk|Hk].
    + rewrite decide_False by lia. rewrite decide_True by lia.
      replace (k - Z.to_nat cellIdx)%nat with 0%nat by lia. simpl.
      replace k with (Z.to_nat cellIdx) by lia.
      apply list_lookup_insert_eq. lia.
    + rewrite list_lookup_insert_ne by lia.
      destruct (decide (cellIdx + 1 ≤ Z.of_nat k
                        < cellIdx + 1 + Z.of_nat (length fs))) as [Hin|Hout].
      * rewrite decide_True by lia.
        replace (k - Z.to_nat cellIdx)%nat
          with (S (k - Z.to_nat (cellIdx + 1)))%nat by lia.
        done.
      * rewrite decide_False by lia. done.
Qed.

Lemma writeObject_spec (memorySize : Z) (phase : Phase) (mem : list Cell)
    (o : Obj.t) :
  Z.of_nat (length mem) = memorySize →
  0 ≤ Obj.addr o → 0 < Obj.size o → Obj.addr o + Obj.size o ≤ memorySize →
  Z.of_nat (length (Obj.fields o)) = Obj.size o - 1 →
  length (writeObject memorySize phase mem o) = length mem
  ∧ ∀ k : nat,
      writeObject memorySize phase mem o !! k
      = if decide (Z.of_nat k = Obj.addr o)
        then Some (Num (headerVal phase o))
        else if decide (Obj.addr o < Z.of_nat k < Obj.addr o + Obj.size o)
        then fieldCell
               <$> Obj.fields o !! (k - Z.to_nat (Obj.addr o) - 1)%nat
        else mem !! k.
Proof.
  intros Hlen Hpos Hsz Hend Hfs. unfold writeObject.
  rewrite decide_False by lia. rewrite assign_inside by lia.
  destruct (writeFields_spec (Obj.fields o) (Obj.addr o + 1)
              (<[Z.to_nat (Obj.addr o) := Num (headerVal phase o)]> mem))
    as [Hlen' Hlook]; [lia|rewrite length_insert; lia|].
  rewrite length_insert in Hlen'. split; [done|]. intros k. rewrite Hlook.
  destruct (decide (Z.of_nat k = Obj.addr o)) as [Hk|Hk].
  - rewrite decide_False by lia.
    replace k with (Z.to_nat (Obj.addr o)) by lia.
    apply list_lookup_insert_eq. lia.
  - rewrite list_lookup_insert_ne by lia.
    destruct (decide (Obj.addr o < Z.of_nat k < Obj.addr o + Obj.size o))
      as [Hin|Hout].
    + rewrite decide_True by lia. do 2 f_equal. lia.
    + rewrite decide_False by lia. done.
Qed.

(** Writing a laid-out list of objects: each shows in its own cells,
    every other cell stays. *)
Lemma writeObjects_spec (memorySize : Z) (phase : Phase)
    (objs : list Obj.t) (mem : list Cell) :
  StronglySorted (λ x y, Obj.addr x + Obj.size x ≤ Obj.addr y) objs →
  Forall (λ o, 0 ≤ Obj.addr o ∧ 0 < Obj.size o
               ∧ Obj.addr o + Obj.size o ≤ memorySize
               ∧ Z.of_nat (length (Obj.fields o)) = Obj.size o - 1) objs →
  Z.of_nat (length mem) = memorySize →
  let mem' := foldl (writeObject memorySize phase) mem objs in
  length mem' = length mem
  ∧ (∀ o, o ∈ objs →
       mem' !! Z.to_nat (Obj.addr o) = Some (Num (headerVal phase o))
       ∧ ∀ j v, Obj.fields o !! j = Some v →
           mem' !! (Z.to_nat (Obj.addr o) + 1 + j)%nat = Some (fieldCell v))
  ∧ (∀ k : nat,
       (∀ o, o ∈ objs → ¬ (Obj.addr o ≤ Z.of_nat k < Obj.addr o + Obj.size o)) →
       mem' !! k = mem !! k).
Proof.
  intros Hs. revert mem.
  induction Hs as [|x objs Hs IH Hx]; intros mem Hok Hlen.
  - simpl. split; [done|]. split; [|done].
    intros o Ho. by apply elem_of_nil in Ho.
  - apply Forall_cons in Hok as [(Hx0 & Hxs & Hxe & Hxf) Hok]. simpl.
    destruct (writeObject_spec memorySize phase mem x Hlen Hx0 Hxs Hxe Hxf)
      as [Hlen1 Hlook1].
    destruct (IH (writeObject memorySize phase mem x) Hok)
      as (Hlen' & Hshown & Hrest); [by rewrite Hlen1|].
    split; [by rewrite Hlen', Hlen1|]. split.
    + intros o [->|Ho]%elem_of_cons; [|by apply Hshown].
      assert (∀ k : nat, Obj.addr x ≤ Z.of_nat k < Obj.addr x + Obj.size x →
                ∀ o, o ∈ objs → ¬ (Obj.addr o ≤ Z.of_nat k < Obj.addr o + Obj.size o))
        as Hfree.
      { intros k Hk o Ho. rewrite Forall_forall in Hx. specialize (Hx o Ho).
        simpl in Hx. lia. }
      split.
      * rewrite Hrest by (apply Hfree; lia). rewrite Hlook1.
        rewrite decide_True by lia. done.
      * intros j v Hj. pose proof (lookup_lt_Some _ _ _ Hj) as Hlt.
        rewrite Hrest by (apply Hfree; lia). rewrite Hlook1.
        rewrite decide_False by lia. rewrite decide_True by lia.
        replace (Z.to_nat (Obj.addr x) + 1 + j - Z.to_nat (Obj.addr x) - 1)%nat
          with j by lia.
        by rewrite Hj.
    + intros k Hk. rewrite Hrest.
      * rewrite Hlook1.
        pose proof (Hk x (list_elem_of_here _ _)) as Hkx.
        rewrite decide_False by lia. rewrite decide_False by lia. done.
      * intros o Ho. apply Hk. by apply list_elem_of_further.
Qed.

(** The number in the header cell, read off the object and the phase. *)
Lemma headerVal_shown (phase : Phase) (o : Obj.t) :
  headerVal phase o
  = if decide ((phase = Mark ∨ phase = Prepare) ∧ Obj.marked o = Some true)
    then - Obj.size o else Obj.size o.
Proof.
  unfold headerVal, Obj.isMarked.
  destruct phase, (Obj.marked o) as [[]|]; case_decide; naive_solver.
Qed.

(** X12.  For a memory size that is an array length and a heap laid out
    inside it in address order without overlap, every object with one
    field less than its size, [buildMemory] returns a tape of exactly
    [memorySize] cells: the cell at an object's address holds the number
    [size], or [-size] when the phase is Mark or Prepare and [marked] is
    true; the cell of its j-th field holds the string "@" followed by
    the decimal numeral of the address the field points to, or null for
    an empty field; and every cell no object covers is null. *)
Theorem buildMemory_tape (objs : list Obj.t) (memorySize : Z) (phase : Phase) :
  0 ≤ memorySize ≤ 4294967295 →
  layout objs →
  Forall (λ o, Obj.addr o + Obj.size o ≤ memorySize
               ∧ Z.of_nat (length (Obj.fields o)) = Obj.size o - 1) objs →
  ∃ mem,
    buildMemory objs memorySize phase = Some mem
    ∧ length mem = Z.to_nat memorySize
    ∧ (∀ o, o ∈ objs →
         mem !! Z.to_nat (Obj.addr o)
         = Some (Num (if decide ((phase = Mark ∨ phase = Prepare)
                                 ∧ Obj.marked o = Some true)
                      then - Obj.size o else Obj.size o))
         ∧ (∀ j a, Obj.fields o !! j = Some (Some a) →
              mem !! (Z.to_nat (Obj.addr o) + 1 + j)%nat
              = Some (Str ("@" +:+ pretty a)))
         ∧ (∀ j, Obj.fields o !! j = Some None →
              mem !! (Z.to_nat (Obj.addr o) + 1 + j)%nat = Some Null))
    ∧ (∀ k : nat,
         (k < Z.to_nat memorySize)%nat →
         (∀ o, o ∈ objs → ¬ (Obj.addr o ≤ Z.of_nat k < Obj.addr o + Obj.size o)) →
         mem !! k = Some Null).
Proof.
  intros Hms [Hs Hpos] Hin. unfold buildMemory. rewrite decide_True by done.
  eexists. split; [done|].
  destruct (writeObjects_spec memorySize phase objs
              (replicate (Z.to_nat memorySize) Null) Hs)
    as (Hlen & Hshown & Hrest).
  - apply Forall_forall. intros o Ho. rewrite Forall_forall in Hpos, Hin.
    specialize (Hpos o Ho). specialize (Hin o Ho). simpl in *. lia.
  - rewrite length_replicate. lia.
  - rewrite length_replicate in Hlen. split; [done|]. split.
    + intros o Ho. destruct (Hshown o Ho) as [Hhead Hfields].
      split; [|split].
      * rewrite Hhead. do 2 f_equal. apply headerVal_shown.
      * intros j a Hj. by rewrite (Hfields j (Some a) Hj).
      * intros j Hj. by rewrite (Hfields j None Hj).
    + intros k Hk Hfree. rewrite (Hrest k Hfree).
      by apply lookup_replicate_2.
Qed.

Lemma buildMemory_tape_witness :
  ∃ mem,
    buildMemory (objects initialState) 36 Idle = Some mem
    ∧ length mem = Z.to_nat 36
    ∧ (∀ o, o ∈ objects initialState →
         mem !! Z.to_nat (Obj.addr o)
         = Some (Num (if decide ((Idle = Mark ∨ Idle = Prepare)
                                 ∧ Obj.marked o = Some true)
                      then - Obj.size o else Obj.size o))
         ∧ (∀ j a, Obj.fields o !! j = Some (Some a) →
              mem !! (Z.to_nat (Obj.addr o) + 1 + j)%nat
              = Some (Str ("@" +:+ pretty a)))
         ∧ (∀ j, Obj.fields o !! j = Some None →
              mem !! (Z.to_nat (Obj.addr o) + 1 + j)%nat = Some Null))
    ∧ (∀ k : nat,
         (k < Z.to_nat 36)%nat →
         (∀ o, o ∈ objects initialState →
               ¬ (Obj.addr o ≤ Z.of_nat k < Obj.addr o + Obj.size o)) →
         mem !! k = Some Null).
Proof.
  apply (buildMemory_tape (objects initialState) 36 Idle).
  - lia.
  - split.
    + repeat constructor; simpl; lia.
    + repeat constructor; simpl; lia.
  - repeat constructor; simpl; lia.
Defined.

(** The tape drawn for the default scenario once it is marked: A, B and
    C show a negated size, the garbage D its size, and A's two pointers
    read "@8" and "@14". *)
Example buildMemory_default_marked :
  markReachable (objects initialState) (root initialState)
    ≫= (λ objs, buildMemory objs 36 Mark)
  = Some ([Null; Null; Num (-4); Str "@8"; Str "@14"; Null; Null; Null;
           Num (-3); Str "@14"; Null; Null; Null; Null;
           Num (-3); Null; Null; Null; Null; Null; Null; Null;
           Num 5] ++ replicate 13 Null).
Proof. vm_compute. reflexivity. Qed.

(** ** The layout of every state the component reaches *)

Lemma Forall2_Forall_transfer {A : Type} (R : A → A → Prop)
    (P Q : A → Prop) (l l' : list A) :
  Forall2 R l l' → (∀ x y, R x y → P x → Q y) → Forall P l → Forall Q l'.
Proof.
  intros HR HPQ. induction HR as [|x y l l' Hxy _ IH]; [done|].
  intros [Hx Hl]%Forall_cons. constructor; [by eapply HPQ|by apply IH].
Qed.

(** The layout of a heap depends on the cells its objects occupy only. *)
Lemma tidy_shape (memorySize : Z) (l l' : list Obj.t) :
  Forall2 sameShape l l' → tidy memorySize l → tidy memorySize l'.
Proof.
  intros HR [[Hs Hpos] Hin]. split; [split|].
  - clear Hpos Hin. induction HR as [|x y l l' Hxy HR IH]; [constructor|].
    apply StronglySorted_inv in Hs as [Hs Hx].
    constructor; [by apply IH|].
    eapply (Forall2_Forall_transfer sameShape); [exact HR| |exact Hx].
    intros a b (Ha & _ & _). simpl. destruct Hxy as (Hxa & Hxs & _). lia.
  - eapply (Forall2_Forall_transfer sameShape); [exact HR| |exact Hpos].
    intros a b (Ha & Hsz & _). simpl. lia.
  - eapply (Forall2_Forall_transfer sameShape); [exact HR| |exact Hin].
    intros a b (Ha & Hsz & Hf). simpl. lia.
Qed.

Lemma markedHeap_shape (objs : list Obj.t) (V : gset Z) :
  Forall2 sameShape objs (markedHeap objs V).
Proof.
  apply Forall2_same_length_lookup_2.
  - unfold markedHeap. by rewrite length_imap.
  - intros r o o' Ho. unfold markedHeap. rewrite list_lookup_imap, Ho.
    simpl. intros [= <-]. by case_decide.
Qed.

Lemma prepared_shape (objs : list Obj.t) (memorySize : Z)
    (rootAddr : option Z) :
  Forall2 sameShape objs
    (preparedObjects (prepareCompaction objs memorySize rootAddr)).
Proof.
  apply Forall2_same_length_lookup_2.
  - pose proof (prepared_addrs objs memorySize rootAddr) as Ha.
    apply (f_equal length) in Ha. by rewrite !length_fmap in Ha.
  - intros r o o' Ho Ho'.
    destruct (prepared_frame objs memorySize rootAddr r) as [Hfr _].
    destruct (Hfr o Ho) as (o'' & Ho'' & _ & Ha & Hs & _ & _ & Hf).
    assert (o'' = o') as -> by congruence. by split.
Qed.

Lemma sumZ_nonneg (l : list Z) : Forall (λ z, 0 ≤ z) l → 0 ≤ sumZ l.
Proof. induction 1; simpl; lia. Qed.

(** A heap without gaps that starts at [c] or later is laid out. *)
Lemma dense_layout (l : list Obj.t) (c : Z) :
  (∀ i o, l !! i = Some o → Obj.addr o = c + sumZ (Obj.size <$> take i l)) →
  Forall (λ o, 0 < Obj.size o) l → 0 ≤ c →
  StronglySorted (λ x y, Obj.addr x + Obj.size x ≤ Obj.addr y) l
  ∧ Forall (λ x, 0 ≤ Obj.addr x ∧ 0 < Obj.size x) l.
Proof.
  revert c. induction l as [|x l IH]; intros c Hdense Hsz Hc.
  - split; constructor.
  - apply Forall_cons in Hsz as [Hx Hsz].
    assert (Obj.addr x = c) as Hx0.
    { rewrite (Hdense 0%nat x eq_refl). rewrite take_0, fmap_nil. simpl. lia. }
    assert (∀ i o, l !! i = Some o →
              Obj.addr o
              = (c + Obj.size x) + sumZ (Obj.size <$> take i l)) as Hdense'.
    { intros i o Hi. rewrite (Hdense (S i) o Hi).
      rewrite firstn_cons, fmap_cons. simpl. lia. }
    destruct (IH (c + Obj.size x) Hdense' Hsz) as [Hs Hpos]; [lia|].
    split; constructor; try done; [|lia].
    apply Forall_forall. intros o [i Hi]%list_elem_of_lookup. simpl.
    rewrite (Hdense' i o Hi).
    assert (0 ≤ sumZ (Obj.size <$> take i l)); [|lia].
    apply sumZ_nonneg, Forall_fmap, Forall_take.
    eapply Forall_impl; [exact Hsz|]. simpl. lia.
Qed.

Lemma lastEnd_le (l : list Obj.t) (b : Z) :
  Forall (λ o, Obj.addr o + Obj.size o ≤ b) l → 0 ≤ b → lastEnd l ≤ b.
Proof.
  intros Hl Hb. unfold lastEnd. generalize 0 Hb. clear Hb.
  induction Hl as [|x l Hx _ IH]; intros m0 Hm; [done|].
  simpl. apply IH. lia.
Qed.

(** Crunching a tidy heap gives a tidy heap. *)
Lemma crunched_tidy (objs : list Obj.t) (m : gmap Z Z) :
  tidy 36 objs → tidy 36 (crunchedObject objs m <$> survivors objs).
Proof.
  intros [[Hs Hpos] Hin].
  pose proof (layout_distinct objs (conj Hs Hpos)) as Hnd.
  destruct (crunched_dense objs m Hnd) as (Hdense & Htotal & Hsizes).
  set (kept := crunchedObject objs m <$> survivors objs) in *.
  assert (∀ o3, o3 ∈ kept →
            ∃ o, o ∈ objs ∧ Obj.size o3 = Obj.size o
                 ∧ length (Obj.fields o3) = length (Obj.fields o)) as Hfrom.
  { intros o3 (o & -> & Ho)%list_elem_of_fmap. exists o.
    unfold survivors in Ho. apply list_elem_of_filter in Ho as [_ Ho].
    rewrite sortByAddr_perm in Ho. split; [done|].
    unfold crunchedObject, preparedObject. simpl. rewrite length_fmap.
    by destruct (Obj.isMarked o). }
  assert (Forall (λ o, 0 < Obj.size o) kept) as Hsz.
  { apply Forall_forall. intros o3 Ho3.
    destruct (Hfrom o3 Ho3) as (o & Ho & -> & _).
    rewrite Forall_forall in Hpos. by apply Hpos. }
  destruct (dense_layout kept 0) as [Hs' Hpos']; [|done|done|].
  { intros i o Hi. rewrite (Hdense i o Hi). lia. }
  assert (lastEnd kept ≤ 36) as Hend.
  { unfold lastEnd. rewrite dense_lastEnd.
    - rewrite Htotal.
      destruct (liveTotal_le_lastEnd objs 0 0 Hs Hpos) as [_ Hle]; [done|].
      assert (lastEnd objs ≤ 36); [|unfold lastEnd in *; lia].
      apply lastEnd_le; [|done]. eapply Forall_impl; [exact Hin|].
      simpl. tauto.
    - intros i o Hi. by rewrite (Hdense i o Hi).
    - eapply Forall_impl; [exact Hsz|]. simpl. lia. }
  split; [done|]. apply Forall_forall. intros o3 Ho3. split.
  - destruct (lastEnd_bound kept) as [_ Hb]. specialize (Hb o3 Ho3). lia.
  - destruct (Hfrom o3 Ho3) as (o & Ho & -> & ->).
    rewrite Forall_forall in Hin. by apply Hin.
Qed.

Lemma initialState_tidy : tidyState initialState.
Proof.
  split; [done|]. split; [|by constructor].
  split; [|by exists 0]. split; [split|]; repeat constructor; simpl; lia.
Qed.

Lemma tidy_lastEnd (objs : list Obj.t) :
  tidy 36 objs → lastEnd objs ≤ 36.
Proof.
  intros [_ Hin]. apply lastEnd_le; [|done].
  eapply Forall_impl; [exact Hin|]. simpl. tauto.
Qed.

Lemma layout_sorted (objs : list Obj.t) :
  layout objs → StronglySorted (λ x y, Obj.addr x ≤ Obj.addr y) objs.
Proof.
  intros [Hs Hpos]. induction Hs as [|x l Hs IH Hx]; [constructor|].
  apply Forall_cons in Hpos as [[_ Hxs] Hpos].
  constructor; [by apply IH|]. eapply Forall_impl; [exact Hx|]. simpl. lia.
Qed.

Lemma addGarbage_tidy (rnd : Z) (s s' : State) :
  tidyState s → addGarbage rnd s = Normal s' → tidyState s'.
Proof.
  intros (Hsc & Hok & Hhist).
  destruct (decide (phase s = Idle)) as [Hph|Hph]; last first.
  { unfold addGarbage. rewrite decide_True by done. by intros [= <-]. }
  destruct (decide (Scenario.memorySize (scenario s) - lastEnd (objects s) < 3))
    as [Hfree|Hfree].
  { unfold addGarbage. rewrite decide_False by (by intros ?).
    rewrite decide_True by done. by intros [= <-]. }
  rewrite addGarbage_Idle by (done || lia). intros [= <-].
  split; [done|]. split; [|done]. simpl. rewrite Hph in Hok |- *.
  destruct Hok as [[[Hs Hpos] Hin] [k Hk]].
  set (g := Obj.mk _ _ 3 _ _ _). rewrite Hsc in Hfree. simpl in Hfree.
  destruct (lastEnd_bound (objects s)) as [Hle0 Hend].
  assert (sortByAddr Obj.addr (objects s ++ [g]) = objects s ++ [g]) as ->.
  { apply sortByAddr_snoc; [by apply layout_sorted|].
    apply Forall_forall. intros o Ho. specialize (Hend o Ho).
    rewrite Forall_forall in Hpos. specialize (Hpos o Ho). simpl in *. lia. }
  split; [split; [split|]|].
  - apply StronglySorted_app_2; [|done|repeat constructor].
    intros x y Hx ->%list_elem_of_singleton. specialize (Hend x Hx).
    simpl. lia.
  - apply Forall_app. split; [done|]. repeat constructor; simpl; lia.
  - apply Forall_app. split; [done|]. repeat constructor; simpl; lia.
  - exists (k + 1). rewrite lastEnd_snoc. simpl. lia.
Qed.

Lemma goPrev_tidy (s s' : State) :
  tidyState s → goPrev s = Normal s' → tidyState s'.
Proof.
  intros (Hsc & Hok & Hhist). unfold goPrev.
  destruct (last (history s)) as [snap|] eqn:Hlast; [|by intros [= <-]].
  apply last_Some in Hlast as [h Hh]. rewrite Hh in Hhist |- *.
  apply Forall_app in Hhist as [Hh' Hsnap].
  rewrite Forall_singleton in Hsnap.
  intros [= <-]. unfold deepClone. split; [done|]. split; simpl; [done|].
  by rewrite removelast_last.
Qed.

Lemma pushHistory_tidy (s : State) :
  tidyState s →
  Forall (λ snap, tidyPhase (Snap.phase snap) (Snap.objects snap)
                    (newMap (Snap.mapping snap)))
         (pushHistory s).
Proof.
  intros (_ & Hok & Hhist). unfold pushHistory. apply Forall_app.
  split; [done|]. apply Forall_singleton. unfold takeSnap, deepClone. simpl.
  by rewrite newMap_entries.
Qed.

Lemma autoRun_tidy (s s' : State) :
  tidyState s → autoRun s = Normal s' → tidyState s'.
Proof.
  intros Htidy. pose proof (pushHistory_tidy s Htidy) as Hpush.
  destruct Htidy as (Hsc & Hok & Hhist). unfold autoRun.
  destruct (phase s) eqn:Hph.
  - destruct (markReachable_visited (objects s) (root s)) as (V & HV & _).
    rewrite (doMark_Idle s _ Hph HV). intros [= <-].
    split; [done|]. split; [|done]. simpl. split; [|done].
    destruct Hok as [Hok _]. eapply tidy_shape; [|exact Hok].
    apply markedHeap_shape.
  - rewrite (doPrepare_Mark s Hph). intros [= <-].
    split; [done|]. split; [|done]. simpl. destruct Hok as [Hok _]. split.
    + eapply tidy_shape; [|exact Hok].
      exact (prepared_shape (objects s)
               (Scenario.memorySize (scenario s)) (root s)).
    + by exists (objects s), (Scenario.memorySize (scenario s)), (root s).
  - destruct Hok as [_ (objs0 & ms & r & Hok0 & Hobjs & Hmap)].
    pose proof (layout_distinct objs0 (proj1 Hok0)) as Hnd.
    pose proof (crunch_closed objs0 ms r Hnd) as Hkept. cbv zeta in Hkept.
    rewrite <- Hobjs, <- Hmap in Hkept.
    rewrite (doCrunch_Prepare s _ Hph Hkept). intros [= <-].
    split; [done|]. split; [|done]. simpl. split; [|done].
    by apply crunched_tidy.
  - intros [= <-]. split; [done|]. split; [by rewrite Hph|done].
Qed.

Lemma reachable_tidy (s : State) : reachableState s → tidyState s.
Proof.
  induction 1 as [|e s s' Hs IH Hstep]; [apply initialState_tidy|].
  destruct e; simpl in Hstep.
  - injection Hstep as <-. apply initialState_tidy.
  - by eapply addGarbage_tidy.
  - by eapply goPrev_tidy.
  - by eapply autoRun_tidy.
  - unfold changeRoot in Hstep. case_decide; injection Hstep as <-; [|done].
    destruct IH as (Hsc & Hok & Hhist). by split.
Qed.

(** X13.  In every state the component reaches, the scenario is the
    default one and the heap is laid out in address order without
    overlap, every object inside the memory and with one field less than
    its size — so [buildMemory] skips no object.  In phase Idle the
    number of free cells behind the last object is never 3, the one
    number for which [addGarbage] would place an object across the end of
    the memory. *)
Theorem reachable_layout (s : State) :
  reachableState s →
  scenario s = makeDefaultScenario
  ∧ layout (objects s)
  ∧ Forall (λ o, insideMemory (Scenario.memorySize (scenario s)) o
                 ∧ Z.of_nat (length (Obj.fields o)) = Obj.size o - 1)
           (objects s)
  ∧ (phase s = Idle →
     Scenario.memorySize (scenario s) - lastEnd (objects s) ≠ 3).
Proof.
  intros (Hsc & [[[Hs Hpos] Hin] Hph] & _)%reachable_tidy.
  split; [done|]. split; [done|]. rewrite Hsc. simpl. split.
  - apply Forall_forall. intros o Ho. rewrite Forall_forall in Hpos, Hin.
    specialize (Hpos o Ho). specialize (Hin o Ho). simpl in *.
    split; [|tauto]. unfold insideMemory. lia.
  - intros Hidle. rewrite Hidle in Hph. destruct Hph as [k Hk]. lia.
Qed.

Lemma reachable_layout_witness :
  scenario initialState = makeDefaultScenario
  ∧ layout (objects initialState)
  ∧ Forall (λ o, insideMemory (Scenario.memorySize (scenario initialState)) o
                 ∧ Z.of_nat (length (Obj.fields o)) = Obj.size o - 1)
           (objects initialState)
  ∧ (phase initialState = Idle →
     Scenario.memorySize (scenario initialState)
     - lastEnd (objects initialState) ≠ 3).
Proof. apply (reachable_layout initialState). apply reachable_initial. Defined.

Lemma reachable_heap_witness :
  NoDup (Obj.addr <$> objects initialState)
  ∧ Forall (λ o, 0 < Obj.size o) (objects initialState)
  ∧ (phase initialState = Idle →
     Forall (λ o, Obj.isMarked o = false) (objects initialState)).
Proof. apply (reachable_heap initialState). apply reachable_initial. Defined.

Lemma handlers_complete_witness :
  ∃ s', handle Next initialState = Normal s'.
Proof. apply (handlers_complete Next initialState). apply reachable_initial. Defined.

(** ** The end of the heap *)

Lemma lastEnd_attained (objs : list Obj.t) (m0 : Z) :
  foldl (λ m o, Z.max m (Obj.addr o + Obj.size o)) m0 objs = m0
  ∨ ∃ o, o ∈ objs
         ∧ foldl (λ m o, Z.max m (Obj.addr o + Obj.size o)) m0 objs
           = Obj.addr o + Obj.size o.
Proof.
  revert m0. induction objs as [|x objs IH]; intros m0; [by left|]. simpl.
  destruct (IH (Z.max m0 (Obj.addr x + Obj.size x))) as [Heq|(o & Ho & Heq)].
  - rewrite Heq. destruct (Z.max_spec m0 (Obj.addr x + Obj.size x))
      as [[_ ->]|[_ ->]]; [|by left].
    right. exists x. split; [apply list_elem_of_here|done].
  - right. exists o. split; [by apply list_elem_of_further|done].
Qed.

(** X16.  The end of the heap computed by the [reduce] over the objects
    is 0 for an empty heap, is never negative, is not exceeded by the end
    of any object, is reached by the end of some object unless it is 0,
    and does not depend on the order of the objects. *)
Theorem lastEnd_is_max (objs objs' : list Obj.t) :
  lastEnd [] = 0
  ∧ 0 ≤ lastEnd objs
  ∧ (∀ o, o ∈ objs → Obj.addr o + Obj.size o ≤ lastEnd objs)
  ∧ (lastEnd objs = 0
     ∨ ∃ o, o ∈ objs ∧ lastEnd objs = Obj.addr o + Obj.size o)
  ∧ (objs ≡ₚ objs' → lastEnd objs = lastEnd objs').
Proof.
  split; [done|]. destruct (lastEnd_bound objs) as [Hpos Hend].
  split; [done|]. split; [done|].
  split; [apply lastEnd_attained|apply lastEnd_perm].
Qed.

Lemma lastEnd_is_max_witness :
  let objs := objects initialState in
  lastEnd [] = 0
  ∧ 0 ≤ lastEnd objs
  ∧ (∀ o, o ∈ objs → Obj.addr o + Obj.size o ≤ lastEnd objs)
  ∧ (lastEnd objs = 0
     ∨ ∃ o, o ∈ objs ∧ lastEnd objs = Obj.addr o + Obj.size o)
  ∧ lastEnd objs = lastEnd (reverse objs).
Proof.
  intros objs.
  destruct (lastEnd_is_max objs (reverse objs))
    as (Hnil & Hpos & Hend & Hmax & Hperm).
  repeat (split; [done|]). apply Hperm. symmetry. apply reverse_Permutation.
Defined.

Lemma prepareCompaction_slides_left_witness :
  let objs := [ Obj.mk "A" 2 4 [Some 8; Some 14; None] (Some true) None;
                Obj.mk "B" 8 3 [Some 14; None] None None;
                Obj.mk "C" 14 3 [None; None] (Some true) None ] in
  let p := prepareCompaction objs 36 (Some 2) in
  (∀ r o, objs !! r = Some o → Obj.isMarked o = true →
     ∃ o' n, preparedObjects p !! r = Some o'
             ∧ Obj.newAddr o' = Some (Some n)
             ∧ oldToNew p !! Obj.addr o = Some n
             ∧ 0 ≤ n ≤ Obj.addr o)
  ∧ 0 ≤ preparedNextFree p ≤ lastEnd objs.
Proof.
  intros objs. apply (prepareCompaction_slides_left objs 36 (Some 2)).
  split; repeat constructor; simpl; lia.
Defined.
